(** * litstudy.common: document sets, document identifiers, record constructors

    A shallow embedding of [src/litstudy/common.py] and the properties of it
    that the specification states.

    Conventions of the embedding.
    - Python exceptions are values of [exn]; a computation that may raise
      has type [exc A]; a method that also assigns attributes of [self] (or
      pops from a local dict) runs in the state-and-exception monad
      [action S A], whose state survives a raise, as in Python.
    - [str] is [string]; a value that is [None] or a [str] is an
      [option string].
    - Python [dict]s that are only read by key are [gmap]s; the [**kwargs]
      dict, whose iteration order the code observes, is an association list
      in insertion order.
    - Python [set]s of keys are [gset]s.
    - Callbacks handed in by the caller (predicates, key functions) are
      total functions. *)

From Stdlib Require Import ZArith Ascii String.
From stdpp Require Import base option list gmap strings.

#[local] Set Warnings "-clear-no-such-hyp".

Local Open Scope string_scope.
Local Open Scope list_scope.

(** ** Exceptions *)

Inductive exn : Type :=
  | KeyError (arg : string)
  | AttributeError (attr : string)
  | TypeError (msg : string).

Inductive exc (A : Type) : Type :=
  | Ok (a : A)
  | Raise (e : exn).
Arguments Ok {A} a.
Arguments Raise {A} e.

#[global] Instance exc_ret : MRet exc := λ A a, Ok a.
#[global] Instance exc_bind : MBind exc := λ A B f m,
  match m with
  | Ok a => f a
  | Raise e => Raise e
  end.

(** State and exceptions: the state reached when an exception is raised is
    kept, so that an [except] clause (or the caller) sees the assignments
    made before the raise. *)
Definition action (S A : Type) : Type := S → exc A * S.

Definition act_ret {S A} (a : A) : action S A := λ s, (Ok a, s).
Definition act_bind {S A B} (f : A → action S B) (m : action S A) : action S B :=
  λ s, match m s with
       | (Ok a, s') => f a s'
       | (Raise e, s') => (Raise e, s')
       end.
#[global] Instance action_ret {S} : MRet (action S) := @act_ret S.
#[global] Instance action_bind {S} : MBind (action S) := @act_bind S.

Definition raise {S A} (e : exn) : action S A := λ s, (Raise e, s).
Definition lift {S A} (r : exc A) : action S A := λ s, (r, s).
Definition get {S} : action S S := λ s, (Ok s, s).
Definition modify {S} (f : S → S) : action S unit := λ s, (Ok tt, f s).

(** [try: body except KeyError: handler] *)
Definition try_except_KeyError {S A} (body handler : action S A) : action S A :=
  λ s, match body s with
       | (Raise (KeyError _), s') => handler s'
       | r => r
       end.

(** [d[k]] on a dict: raises [KeyError(k)] when the key is missing. *)
Definition getitem {V} (d : gmap string V) (k : string) : exc V :=
  match d !! k with
  | Some v => Ok v
  | None => Raise (KeyError k)
  end.

(** ** [str.startswith], [str.replace]

    [s.replace(old, new)]: every occurrence of [old] in [s], found scanning
    from the left and not overlapping an earlier one, is replaced by [new].
    [skip] counts the characters of a matched occurrence still to be passed
    over. For an empty [old], Python puts [new] before every character and
    at the end. *)
Fixpoint startswith (s prefix : string) {struct prefix} : bool :=
  match prefix with
  | EmptyString => true
  | String a prefix' =>
      match s with
      | EmptyString => false
      | String b s' => Ascii.eqb a b && startswith s' prefix'
      end
  end.

Fixpoint replace_from (old new : string) (skip : nat) (s : string) : string :=
  match s with
  | EmptyString => EmptyString
  | String c s' =>
      match skip with
      | S n => replace_from old new n s'
      | O =>
          if startswith s old
          then new +:+ replace_from old new (String.length old - 1) s'
          else String c (replace_from old new 0 s')
      end
  end.

Fixpoint intersperse_before (new s : string) : string :=
  match s with
  | EmptyString => new
  | String c s' => new +:+ String c (intersperse_before new s')
  end.

Definition replace (s old new : string) : string :=
  match old with
  | EmptyString => intersperse_before new s
  | _ => replace_from old new 0 s
  end.

(** [v.replace(old, new)] on an attribute value [v] that is [None] or a
    string: [None] has no method [replace]. *)
Definition str_replace (v : option string) (old new : string) : exc string :=
  match v with
  | Some s => Ok (replace s old new)
  | None => Raise (AttributeError "replace")
  end.

(** [old in s] *)
Fixpoint occurs (old s : string) : bool :=
  startswith s old ||
  match s with
  | EmptyString => false
  | String _ s' => occurs old s'
  end.

(** Truth value of a value that is [None] or a [str]. *)
Definition truthy (v : option string) : bool :=
  match v with
  | None => false
  | Some EmptyString => false
  | Some (String _ _) => true
  end.

(** ** class DocumentID *)

Module DocumentID.

Record t : Type := mk { id : option string; is_doi : bool }.

Definition set_id (v : option string) : action t unit :=
  modify (λ self, mk v (is_doi self)).

Definition set_is_doi (b : bool) : action t unit :=
  modify (λ self, mk (id self) b).

Definition __init__ (doc_id : option string) : t :=
  {| id := doc_id; is_doi := false |}.

(** The attributes of a Scopus abstract that the parser reads; each is
    [None] or a string. *)
Record scopus_abstract : Type :=
  { doi : option string; eid : option string; title : option string }.

Definition parse_scopus (scopus_abstract : scopus_abstract) : action t unit :=
  if truthy (doi scopus_abstract) then
    set_id (doi scopus_abstract);;
    set_is_doi true
  else if truthy (eid scopus_abstract) then
    set_id (eid scopus_abstract)
  else
    set_id (title scopus_abstract).

Definition parse_dblp (dblp_result : gmap string (gmap string string))
  : action t unit :=
  try_except_KeyError
    (info ← lift (getitem dblp_result "info");
     v ← lift (getitem info "doi");
     set_id (Some v);;
     set_is_doi true)
    (info ← lift (getitem dblp_result "info");
     v ← lift (getitem info "title");
     set_id (Some v)).

Definition parse_bibtex (bibtex_entry : gmap string string) : action t unit :=
  try_except_KeyError
    (v ← lift (getitem bibtex_entry "doi");
     set_id (Some v);;
     self ← get;
     v ← lift (str_replace (id self) "http://doi.org/" "");
     set_id (Some v);;
     self ← get;
     v ← lift (str_replace (id self) "http://doi.ieeecomputersociety.org/" "");
     set_id (Some v);;
     set_is_doi true)
    (v ← lift (getitem bibtex_entry "title");
     set_id (Some v)).

End DocumentID.

(** ** Values held by record attributes

    The constructors of [Document], [Author] and [Affiliation] store
    whatever the caller passes. [VObject] stands for a reference to an
    object of any other class (an author, the source's raw record, ...);
    such objects have no attribute [id]. *)
#[local] Set Warnings "-register-all".
Inductive value : Type :=
  | VNone
  | VInt (z : Z)
  | VStr (s : string)
  | VList (l : list value)
  | VDocumentID (i : DocumentID.t)
  | VObject (o : positive).

(** ** The [**kwargs] dict

    Keys in insertion order, no key twice. *)
Definition dict : Type := list (string * value).

Fixpoint dict_get (key : string) (d : dict) : option value :=
  match d with
  | [] => None
  | (k, v) :: d' => if String.eqb k key then Some v else dict_get key d'
  end.

Fixpoint dict_del (key : string) (d : dict) : dict :=
  match d with
  | [] => []
  | (k, v) :: d' =>
      if String.eqb k key then dict_del key d' else (k, v) :: dict_del key d'
  end.

(** [kwargs.pop(key)] *)
Definition pop (key : string) : action dict value :=
  λ kwargs, match dict_get key kwargs with
            | Some v => (Ok v, dict_del key kwargs)
            | None => (Raise (KeyError key), kwargs)
            end.

(** [kwargs.pop(key, default)] *)
Definition pop_default (key : string) (default : value) : action dict value :=
  λ kwargs, match dict_get key kwargs with
            | Some v => (Ok v, dict_del key kwargs)
            | None => (Ok default, kwargs)
            end.

(** [if kwargs: raise KeyError('got an unexpected keyword argument {}'
    .format(next(iter(kwargs))))] *)
Definition reject_unexpected : action dict unit :=
  kwargs ← get;
  match kwargs with
  | [] => mret tt
  | (k, _) :: _ => raise (KeyError ("got an unexpected keyword argument " +:+ k))
  end.

(** Calling the class with keyword arguments runs [__init__], whose first
    parameter [self] is bound to the new object and whose [**kwargs] takes
    the keywords: a keyword named [self] gives that parameter a second
    value, and the call raises [TypeError] before the body of [method]
    runs. The message is the one of Python 3.10 and later, which print
    the qualified name of the method. *)
Definition multiple_values_for_self (method : string) : exn :=
  TypeError (method +:+ "() got multiple values for argument 'self'").

Definition bind_self {T} (method : string) (body : dict → exc T)
    (kwargs : dict) : exc T :=
  match dict_get "self" kwargs with
  | Some _ => Raise (multiple_values_for_self method)
  | None => body kwargs
  end.

(** ** class Document *)

Module Document.

Record t : Type := mk {
  id : value;
  title : value;
  authors : value;
  keywords : value;
  abstract : value;
  references : value;
  year : value;
  source : value;
  source_type : value;
  citation_count : value;
  _internal : value;
  language : value;
  publisher : value
}.

Definition __init__ : dict → exc t :=
  bind_self "Document.__init__" (λ kwargs,
  fst ((id ← pop "id";
        title ← pop "title";
        authors ← pop_default "authors" VNone;
        keywords ← pop_default "keywords" VNone;
        abstract ← pop_default "abstract" VNone;
        references ← pop_default "references" VNone;
        year ← pop_default "year" VNone;
        source ← pop_default "source" VNone;
        source_type ← pop_default "source_type" VNone;
        citation_count ← pop_default "citation_count" VNone;
        _internal ← pop_default "internal" VNone;
        language ← pop_default "language" VNone;
        publisher ← pop_default "publisher" VNone;
        reject_unexpected;;
        mret (mk id title authors keywords abstract references year source
                 source_type citation_count _internal language publisher))
       kwargs)).

(** The names [__init__] pops, in the order of the pops. *)
Definition fields : list string :=
  ["id"; "title"; "authors"; "keywords"; "abstract"; "references"; "year";
   "source"; "source_type"; "citation_count"; "internal"; "language";
   "publisher"].

End Document.

(** ** class Author *)

Module Author.

Record t : Type := mk { orcid : value; name : value; affiliations : value }.

Definition __init__ : dict → exc t :=
  bind_self "Author.__init__" (λ kwargs,
  fst ((orcid ← pop_default "orcid" VNone;
        name ← pop "name";
        affiliations ← pop_default "affiliations" VNone;
        reject_unexpected;;
        mret (mk orcid name affiliations))
       kwargs)).

Definition fields : list string := ["orcid"; "name"; "affiliations"].

End Author.

(** ** class Affiliation *)

Module Affiliation.

Record t : Type := mk { name : value; city : value; country : value }.

Definition __init__ : dict → exc t :=
  bind_self "Affiliation.__init__" (λ kwargs,
  fst ((name ← pop "name";
        city ← pop_default "city" VNone;
        country ← pop_default "country" VNone;
        reject_unexpected;;
        mret (mk name city country))
       kwargs)).

Definition fields : list string := ["name"; "city"; "country"].

End Affiliation.

(** ** Subscription and iteration of a Python [list]

    [l[key]] for an integer or a slice [start:stop:step]; an integer below
    zero counts from the end; the bounds of a slice are clipped to the
    list. An integer that does not fit an index of the machine is refused
    with a message of its own; a list has at most [PY_SSIZE_T_MAX] items,
    so an integer within the list always fits. *)
Inductive index_exn : Type :=
  | IndexError (msg : string)
  | ValueError (msg : string).

Inductive subscript : Type :=
  | Index (i : Z)
  | Slice (start stop step : option Z).

(** The largest index, and length of a list, that CPython can hold (a
    64-bit build). *)
Definition PY_SSIZE_T_MAX : Z := (2 ^ 63 - 1)%Z.

Definition fits_index (i : Z) : bool :=
  (- PY_SSIZE_T_MAX - 1 <=? i)%Z && (i <=? PY_SSIZE_T_MAX)%Z.

(** The start, stop and step a slice stands for on a list of [len]
    items. *)
Definition slice_indices (start stop step : option Z) (len : Z)
  : index_exn + (Z * Z * Z) :=
  let step := default 1%Z step in
  if (step =? 0)%Z then inl (ValueError "slice step cannot be zero")
  else
    let lower := if (step <? 0)%Z then (-1)%Z else 0%Z in
    let upper := if (step <? 0)%Z then (len - 1)%Z else len in
    let clip (v : Z) :=
      if (v <? 0)%Z then Z.max (v + len) lower else Z.min v upper in
    let start :=
      match start with
      | None => if (step <? 0)%Z then upper else lower
      | Some v => clip v
      end in
    let stop :=
      match stop with
      | None => if (step <? 0)%Z then lower else upper
      | Some v => clip v
      end in
    inr (start, stop, step).

(** The number of items of the slice. *)
Definition slice_length (start stop step : Z) : nat :=
  if (step <? 0)%Z then
    if (stop <? start)%Z then Z.to_nat ((start - stop - 1) / (- step) + 1) else 0
  else
    if (start <? stop)%Z then Z.to_nat ((stop - start - 1) / step + 1) else 0.

Definition list_getitem {A} (l : list A) (key : subscript)
  : index_exn + (A + list A) :=
  let len := Z.of_nat (length l) in
  match key with
  | Index i =>
      let j := if (i <? 0)%Z then (i + len)%Z else i in
      if (j <? 0)%Z || (len <=? j)%Z
      then
        if fits_index i
        then inl (IndexError "list index out of range")
        else inl (IndexError "cannot fit 'int' into an index-sized integer")
      else
        match l !! Z.to_nat j with
        | Some x => inr (inl x)
        | None => inl (IndexError "list index out of range")
        end
  | Slice start stop step =>
      match slice_indices start stop step len with
      | inl e => inl e
      | inr (start, stop, step) =>
          inr (inr (omap (λ j, l !! Z.to_nat (start + Z.of_nat j * step))
                         (seq 0 (slice_length start stop step))))
      end
  end.

(** [iter(l)]: the list and the position of the next item; an iterator
    that has run out holds no list any more. *)
Record list_iterator (A : Type) : Type :=
  { it_seq : option (list A); it_index : nat }.
Arguments it_seq {A} _.
Arguments it_index {A} _.

Definition list_iter {A} (l : list A) : list_iterator A :=
  {| it_seq := Some l; it_index := 0 |}.

(** [next(it)]: the next item and the iterator after it, or [None] for
    [StopIteration]. *)
Definition list_next {A} (it : list_iterator A) : option A * list_iterator A :=
  match it_seq it with
  | None => (None, it)
  | Some l =>
      match l !! it_index it with
      | Some x => (Some x, {| it_seq := Some l; it_index := S (it_index it) |})
      | None => (None, {| it_seq := None; it_index := it_index it |})
      end
  end.

(** [for x in it]: the items of at most [fuel] calls of [next], up to the
    first [StopIteration], and the iterator left. *)
Fixpoint list_drain {A} (fuel : nat) (it : list_iterator A)
  : list A * list_iterator A :=
  match fuel with
  | O => ([], it)
  | S fuel' =>
      match list_next it with
      | (Some x, it') =>
          let '(xs, it'') := list_drain fuel' it' in (x :: xs, it'')
      | (None, it') => ([], it')
      end
  end.

(** ** class DocumentSet *)

Module DocumentSet.

Record t : Type := mk { docs : list Document.t }.

Definition filter (self : t) (predicate : Document.t → bool) : t :=
  mk (List.filter predicate (docs self)).

(** [document.id.id]; only a [DocumentID] has the attribute [id]. *)
Definition default_key (document : Document.t) : exc (option string) :=
  match Document.id document with
  | VDocumentID i => Ok (DocumentID.id i)
  | _ => Raise (AttributeError "id")
  end.

Section keyed.
Context {K : Type} `{Countable K}.

(** The loop of [filter_duplicates], with its two local variables. *)
Fixpoint filter_duplicates_loop (key : Document.t → exc K)
    (docs : list Document.t) (keys : gset K) (result : list Document.t)
  : exc (list Document.t) :=
  match docs with
  | [] => Ok result
  | doc :: docs' =>
      k ← key doc;
      if bool_decide (k ∉ keys)
      then filter_duplicates_loop key docs' ({[k]} ∪ keys) (result ++ [doc])
      else filter_duplicates_loop key docs' keys result
  end.

(** [filter_duplicates] once [key] is bound. *)
Definition filter_duplicates_by (key : Document.t → exc K) (self : t) : exc t :=
  result ← filter_duplicates_loop key (docs self) ∅ [];
  mret (mk result).

(** The two loops of [difference]. *)
Fixpoint keys_other_loop (key : Document.t → exc K)
    (docs : list Document.t) (keys_other : gset K) : exc (gset K) :=
  match docs with
  | [] => Ok keys_other
  | doc :: docs' =>
      k ← key doc;
      keys_other_loop key docs' ({[k]} ∪ keys_other)
  end.

Fixpoint difference_loop (key : Document.t → exc K)
    (docs : list Document.t) (keys_other : gset K) (result : list Document.t)
  : exc (list Document.t) :=
  match docs with
  | [] => Ok result
  | doc :: docs' =>
      k ← key doc;
      if bool_decide (k ∉ keys_other)
      then difference_loop key docs' keys_other (result ++ [doc])
      else difference_loop key docs' keys_other result
  end.

(** [difference] once [key] is bound. *)
Definition difference_by (key : Document.t → exc K) (self other : t) : exc t :=
  keys_other ← keys_other_loop key (docs other) ∅;
  result ← difference_loop key (docs self) keys_other [];
  mret (mk result).

End keyed.

(** [key=None] selects [default_key], whose keys are identifier values; a
    key function passed by the caller has its keys in [K]. *)
Definition filter_duplicates {K} `{Countable K}
    (self : t) (key : option (Document.t → K)) : exc t :=
  match key with
  | None => filter_duplicates_by default_key self
  | Some key => filter_duplicates_by (λ d, Ok (key d)) self
  end.

Definition union {K} `{Countable K}
    (self other : t) (key : option (Document.t → K)) : exc t :=
  filter_duplicates (mk (docs self ++ docs other)) key.

Definition difference {K} `{Countable K}
    (self other : t) (key : option (Document.t → K)) : exc t :=
  match key with
  | None => difference_by default_key self other
  | Some key => difference_by (λ d, Ok (key d)) self other
  end.

Definition __len__ (self : t) : nat := length (docs self).

Definition __getitem__ (self : t) (key : subscript)
  : index_exn + (Document.t + list Document.t) :=
  list_getitem (docs self) key.

Definition __iter__ (self : t) : list_iterator Document.t :=
  list_iter (docs self).

End DocumentSet.

(** ** The store of [DocumentSet] objects

    A [DocumentSet] is an object; callers hold references to it. The store
    maps each reference to the object's current attributes. Building a
    [DocumentSet] allocates a reference the store does not have yet. *)
Module Store.

Abbreviation store := (gmap positive DocumentSet.t).

(** [DocumentSet(docs)] *)
Definition new (o : DocumentSet.t) (σ : store) : positive * store :=
  let r := fresh (dom σ) in (r, <[r := o]> σ).

(** [self.filter(predicate)], [self] a reference into the store; [None]
    when [self] refers to no object. *)
Definition filter (self : positive) (predicate : Document.t → bool)
    (σ : store) : option (positive * store) :=
  o ← σ !! self;
  Some (new (DocumentSet.filter o predicate) σ).

End Store.

(** ** Notions the statements use *)

(** The document's identifier value, when its [id] is a [DocumentID]. *)
Definition id_value (d : Document.t) : option string :=
  match Document.id d with
  | VDocumentID i => DocumentID.id i
  | _ => None
  end.

Definition has_DocumentID (d : Document.t) : bool :=
  match Document.id d with
  | VDocumentID _ => true
  | _ => false
  end.

(** The documents of [l] whose key occurs neither in [seen] nor at an
    earlier position of [l], in the order of their positions. *)
Definition first_occurrences {K} `{EqDecision K}
    (seen : list K) (k : Document.t → K) (l : list Document.t) : list Document.t :=
  omap (λ i, d ← l !! i;
             if bool_decide (k d ∈ seen ++ (k <$> take i l)) then None else Some d)
       (seq 0 (length l)).

(** The two URL strings [parse_bibtex] removes. *)
Definition url_doi : string := "http://doi.org/".
Definition url_ieee : string := "http://doi.ieeecomputersociety.org/".

(** [s] without its first [n] characters. *)
Fixpoint string_drop (n : nat) (s : string) : string :=
  match n, s with
  | S n', String _ s' => string_drop n' s'
  | _, _ => s
  end.

(** [s] without [prefix] at its front, when it starts with it. *)
Definition strip_prefix (prefix s : string) : string :=
  if startswith s prefix then string_drop (String.length prefix) s else s.

(** The normalisation of a DOI as the specification words it: each known
    URL prefix is taken off the front of the value, the rest is kept. *)
Definition strip_known_prefixes (v : string) : string :=
  strip_prefix url_ieee (strip_prefix url_doi v).

(** The fallback chain for a Scopus record as the specification words it:
    a DOI that is present and not empty, else an eid that is present, else
    the title. *)
Definition scopus_chain_as_stated (a : DocumentID.scopus_abstract)
  : DocumentID.t :=
  match DocumentID.doi a with
  | Some (String c s) => DocumentID.mk (Some (String c s)) true
  | _ =>
      match DocumentID.eid a with
      | Some e => DocumentID.mk (Some e) false
      | None => DocumentID.mk (DocumentID.title a) false
      end
  end.

(** The DOI of a DBLP result, when every key on the path to it is there. *)
Definition dblp_doi (dblp_result : gmap string (gmap string string))
  : option string :=
  info ← dblp_result !! "info"; info !! "doi".

(** The keys of [kwargs] that are not among [fields], in insertion order. *)
Definition unexpected (fields : list string) (kwargs : dict) : list string :=
  filter (λ k, k ∉ fields) (kwargs.*1).

(** The value an attribute gets: the one passed, [None] otherwise. *)
Definition attr (key : string) (kwargs : dict) : value :=
  default VNone (dict_get key kwargs).

Definition Document_of (kwargs : dict) : Document.t :=
  Document.mk (attr "id" kwargs) (attr "title" kwargs) (attr "authors" kwargs)
    (attr "keywords" kwargs) (attr "abstract" kwargs) (attr "references" kwargs)
    (attr "year" kwargs) (attr "source" kwargs) (attr "source_type" kwargs)
    (attr "citation_count" kwargs) (attr "internal" kwargs)
    (attr "language" kwargs) (attr "publisher" kwargs).

Definition Author_of (kwargs : dict) : Author.t :=
  Author.mk (attr "orcid" kwargs) (attr "name" kwargs) (attr "affiliations" kwargs).

Definition Affiliation_of (kwargs : dict) : Affiliation.t :=
  Affiliation.mk (attr "name" kwargs) (attr "city" kwargs) (attr "country" kwargs).

(** What a constructor [init] with attributes [fields] does with the names
    it is passed; [required] are the attributes without a default, in the
    order in which [init] reads them. *)
Definition checks_field_names {T} (init : dict → exc T) (of_kwargs : dict → T)
    (fields required : list string) : Prop :=
  ∀ kwargs : dict,
    ("self" ∈ kwargs.*1 → ∃ msg, init kwargs = Raise (TypeError msg))
    ∧ ("self" ∉ kwargs.*1 →
       (unexpected fields kwargs ≠ [] →
        ∃ msg, init kwargs = Raise (KeyError msg))
       ∧ (∀ f rest,
            unexpected fields kwargs = f :: rest →
            (∀ r, r ∈ required → is_Some (dict_get r kwargs)) →
            init kwargs
            = Raise (KeyError ("got an unexpected keyword argument " +:+ f))
            ∧ occurs f ("got an unexpected keyword argument " +:+ f) = true)
       ∧ (∀ present r later,
            required = present ++ r :: later →
            (∀ r', r' ∈ present → is_Some (dict_get r' kwargs)) →
            dict_get r kwargs = None →
            init kwargs = Raise (KeyError r))
       ∧ (unexpected fields kwargs = [] →
          (∀ r, r ∈ required → is_Some (dict_get r kwargs)) →
          init kwargs = Ok (of_kwargs kwargs))).

Definition missing (kwargs : dict) (key : string) : bool :=
  match dict_get key kwargs with
  | None => true
  | Some _ => false
  end.

(** The outcome of a constructor: a keyword [self] is refused; else the
    first required name that is missing is reported; else the first
    unrecognised name is; else the object is built. *)
Definition init_outcome {T} (method : string) (of_kwargs : dict → T)
    (fields required : list string) (kwargs : dict) : exc T :=
  match dict_get "self" kwargs with
  | Some _ => Raise (multiple_values_for_self method)
  | None =>
      match List.find (missing kwargs) required with
      | Some r => Raise (KeyError r)
      | None =>
          match unexpected fields kwargs with
          | [] => Ok (of_kwargs kwargs)
          | k :: _ =>
              Raise (KeyError ("got an unexpected keyword argument " +:+ k))
          end
      end
  end.

(** The order in which keyword arguments are written does not matter to
    [init], as long as the unrecognised names come in the same order. *)
Definition keyword_order_irrelevant {T} (init : dict → exc T)
    (fields : list string) : Prop :=
  ∀ kwargs kwargs' : dict,
    NoDup (kwargs.*1) → kwargs ≡ₚ kwargs' →
    unexpected fields kwargs = unexpected fields kwargs' →
    init kwargs = init kwargs'.

(** Passing [None] for an attribute that has a default is the same as not
    passing it, wherever it is written. *)
Definition None_is_omission {T} (init : dict → exc T)
    (fields required : list string) : Prop :=
  ∀ (kwargs1 kwargs2 : dict) (key : string),
    key ∈ fields → key ∉ required → key ∉ (kwargs1 ++ kwargs2).*1 →
    init (kwargs1 ++ (key, VNone) :: kwargs2) = init (kwargs1 ++ kwargs2).

(** Documents for the examples: an identifier and a title, every other
    attribute [None]. *)
Definition mkdoc (i : value) (t : string) : Document.t :=
  Document.mk i (VStr t) VNone VNone VNone VNone VNone VNone VNone VNone VNone
    VNone VNone.

Definition doi_id (s : string) : value :=
  VDocumentID (DocumentID.mk (Some s) true).

Definition title_id (s : string) : value :=
  VDocumentID (DocumentID.mk (Some s) false).

(** * Properties *)

(** ** Examples *)

Example replace_overlapping : replace "aaa" "aa" "b" = "ba".
Proof. reflexivity. Qed.

Example replace_every_occurrence : replace "abcabc" "bc" "" = "aa".
Proof. reflexivity. Qed.

Example replace_empty_old : replace "abc" "" "-" = "-a-b-c-".
Proof. reflexivity. Qed.

Example parse_bibtex_doi_url :
  DocumentID.parse_bibtex {[ "doi" := "http://doi.org/10.1/xyz" ]}
    (DocumentID.__init__ None)
  = (Ok tt, DocumentID.mk (Some "10.1/xyz") true).
Proof. vm_compute. reflexivity. Qed.

Example parse_bibtex_title_only :
  DocumentID.parse_bibtex {[ "title" := "A Title" ]} (DocumentID.__init__ None)
  = (Ok tt, DocumentID.mk (Some "A Title") false).
Proof. vm_compute. reflexivity. Qed.

Example Document_bogus_field :
  Document.__init__ [("title", VStr "T"); ("id", VNone); ("bogus", VInt 1)]
  = Raise (KeyError "got an unexpected keyword argument bogus").
Proof. vm_compute. reflexivity. Qed.

Example Author_without_name :
  Author.__init__ [("orcid", VStr "0000-0001")] = Raise (KeyError "name").
Proof. vm_compute. reflexivity. Qed.

(** The scenario of the specification: both documents of [B] repeat a key
    of [A]. *)
Example union_scenario :
  DocumentSet.union (K:=nat)
    (DocumentSet.mk [mkdoc (doi_id "10.1/x") "docA";
                     mkdoc (title_id "Same Title") "docB"])
    (DocumentSet.mk [mkdoc (doi_id "10.1/x") "docC";
                     mkdoc (title_id "Same Title") "docD"])
    None
  = Ok (DocumentSet.mk [mkdoc (doi_id "10.1/x") "docA";
                        mkdoc (title_id "Same Title") "docB"]).
Proof. vm_compute. reflexivity. Qed.

(** A document whose [id] is no [DocumentID] has no default key. *)
Example filter_duplicates_no_DocumentID :
  DocumentSet.filter_duplicates (K:=nat)
    (DocumentSet.mk [mkdoc (doi_id "10.1/x") "docA"; mkdoc (VStr "10.1/x") "docB"])
    None
  = Raise (AttributeError "id").
Proof. vm_compute. reflexivity. Qed.

(** ** First occurrences *)

Section first_occurrences.

Context {K : Type} `{Countable K}.
Implicit Types (k : Document.t → K) (seen : list K) (l : list Document.t).

Lemma omap_seq_S {B} (f : nat → option B) j n :
  omap f (seq (S j) n) = omap (f ∘ S) (seq j n).
Proof.
  revert j. induction n as [|n IH]; intros j; [done|].
  cbn [seq omap list_omap]. simpl. by rewrite <- IH.
Qed.

Lemma first_occurrences_nil seen k : first_occurrences seen k [] = [].
Proof. done. Qed.

Lemma first_occurrences_cons seen k d l :
  first_occurrences seen k (d :: l)
  = (if bool_decide (k d ∈ seen) then [] else [d])
    ++ first_occurrences (seen ++ [k d]) k l.
Proof.
  unfold first_occurrences. cbn [length seq omap list_omap].
  rewrite omap_seq_S. simpl. rewrite app_nil_r.
  assert (Hext : ∀ (f g : nat → option Document.t) (js : list nat),
             (∀ i, f i = g i) → omap f js = omap g js).
  { intros f g js Hfg. induction js as [|j js IH]; [done|].
    cbn [omap list_omap]. by rewrite Hfg, IH. }
  rewrite (Hext _ (λ i, d0 ← l !! i;
              if bool_decide (k d0 ∈ (seen ++ [k d]) ++ (k <$> take i l))
              then None else Some d0)).
  - by destruct (bool_decide (k d ∈ seen)).
  - intros i. simpl. destruct (l !! i) as [d0|]; [|done]. simpl.
    by rewrite <- app_assoc.
Qed.

Lemma first_occurrences_app seen k l1 l2 :
  first_occurrences seen k (l1 ++ l2)
  = first_occurrences seen k l1
    ++ first_occurrences (seen ++ (k <$> l1)) k l2.
Proof.
  revert seen. induction l1 as [|d l1 IH]; intros seen.
  - by rewrite first_occurrences_nil, app_nil_r.
  - rewrite <- app_comm_cons, !first_occurrences_cons, IH, <- !app_assoc.
    done.
Qed.

Lemma first_occurrences_sublist seen k l :
  sublist (first_occurrences seen k l) l.
Proof.
  revert seen. induction l as [|d l IH]; intros seen.
  - by rewrite first_occurrences_nil.
  - rewrite first_occurrences_cons.
    destruct (bool_decide (k d ∈ seen)); simpl.
    + by apply sublist_cons.
    + by apply sublist_skip.
Qed.

Lemma first_occurrences_fresh seen k l x :
  x ∈ k <$> first_occurrences seen k l → x ∉ seen.
Proof.
  revert seen. induction l as [|d l IH]; intros seen.
  - rewrite first_occurrences_nil. by intros ?%elem_of_nil.
  - rewrite first_occurrences_cons, fmap_app, elem_of_app.
    intros [Hx|Hx].
    + case_bool_decide; simpl in Hx; [by apply elem_of_nil in Hx|].
      apply list_elem_of_singleton in Hx. by subst.
    + apply IH in Hx. rewrite elem_of_app in Hx. tauto.
Qed.

Lemma first_occurrences_NoDup seen k l :
  NoDup (k <$> first_occurrences seen k l).
Proof.
  revert seen. induction l as [|d l IH]; intros seen.
  - rewrite first_occurrences_nil. constructor.
  - rewrite first_occurrences_cons, fmap_app.
    case_bool_decide; simpl; [apply IH|].
    constructor; [|apply IH].
    intros Hx%first_occurrences_fresh.
    rewrite elem_of_app, list_elem_of_singleton in Hx. tauto.
Qed.

(** Every key of [l] is in [seen] or is the key of a kept document. *)
Lemma first_occurrences_keys seen k l x :
  x ∈ seen ++ (k <$> l) ↔ x ∈ seen ++ (k <$> first_occurrences seen k l).
Proof.
  revert seen. induction l as [|d l IH]; intros seen.
  - by rewrite first_occurrences_nil.
  - specialize (IH (seen ++ [k d])).
    rewrite !elem_of_app, list_elem_of_singleton in IH.
    rewrite first_occurrences_cons, fmap_app, fmap_cons.
    rewrite !elem_of_app, elem_of_cons.
    case_bool_decide as Hd; simpl.
    + rewrite elem_of_nil.
      assert (x = k d → x ∈ seen) by (by intros ->). tauto.
    + rewrite list_elem_of_singleton. tauto.
Qed.

(** A list without repeated keys, none of them seen, is kept whole. *)
Lemma first_occurrences_id seen k l :
  NoDup (k <$> l) → (∀ x, x ∈ k <$> l → x ∉ seen) →
  first_occurrences seen k l = l.
Proof.
  revert seen. induction l as [|d l IH]; intros seen Hnd Hfresh.
  - by rewrite first_occurrences_nil.
  - rewrite first_occurrences_cons. rewrite fmap_cons in Hnd, Hfresh.
    apply NoDup_cons in Hnd as [Hd Hnd].
    rewrite bool_decide_eq_false_2 by (apply Hfresh; left).
    simpl. f_equal. apply IH; [done|].
    intros x Hx. rewrite elem_of_app, list_elem_of_singleton.
    intros [Hs| ->]; [|done]. by apply (Hfresh x); [right|].
Qed.

Lemma first_occurrences_idemp seen k l :
  first_occurrences seen k (first_occurrences seen k l)
  = first_occurrences seen k l.
Proof.
  apply first_occurrences_id.
  - apply first_occurrences_NoDup.
  - intros x. apply first_occurrences_fresh.
Qed.

Lemma first_occurrences_elem_of seen k l d :
  d ∈ first_occurrences seen k l → d ∈ l.
Proof. apply sublist_subseteq, first_occurrences_sublist. Qed.

End first_occurrences.

(** ** The loops of [DocumentSet] *)

Section loops.

Context {K : Type} `{Countable K}.
Implicit Types (key : Document.t → exc K) (kf : Document.t → K).
Implicit Types (docs result : list Document.t) (keys : gset K).

(** Where the key function returns on every document, the loop of
    [filter_duplicates] appends the first occurrences to [result]. *)
Lemma filter_duplicates_loop_total key kf docs keys seen result :
  (∀ d, d ∈ docs → key d = Ok (kf d)) →
  (∀ x, x ∈ keys ↔ x ∈ seen) →
  DocumentSet.filter_duplicates_loop key docs keys result
  = Ok (result ++ first_occurrences seen kf docs).
Proof.
  revert keys seen result.
  induction docs as [|doc docs IH]; intros keys seen result Hkey Hkeys.
  - by rewrite first_occurrences_nil, app_nil_r.
  - cbn [DocumentSet.filter_duplicates_loop].
    rewrite (Hkey doc) by left. simpl.
    rewrite first_occurrences_cons.
    assert (Hdocs : ∀ d, d ∈ docs → key d = Ok (kf d))
      by (intros d Hd; apply Hkey; by right).
    destruct (decide (kf doc ∈ keys)) as [Hin|Hnin].
    + rewrite bool_decide_eq_false_2 by tauto.
      rewrite bool_decide_eq_true_2 by (by apply Hkeys).
      rewrite (IH keys (seen ++ [kf doc]) result Hdocs); [done|].
      intros x. rewrite elem_of_app, list_elem_of_singleton, <- Hkeys.
      split; [tauto|]. by intros [?| ->].
    + rewrite bool_decide_eq_true_2 by done.
      rewrite bool_decide_eq_false_2 by (by rewrite <- Hkeys).
      rewrite (IH ({[kf doc]} ∪ keys) (seen ++ [kf doc]) _ Hdocs).
      * by rewrite <- app_assoc.
      * intros x. rewrite elem_of_app, list_elem_of_singleton, <- Hkeys.
        set_solver.
Qed.

(** Where it raises on some document, and raises nothing else, the loop
    raises. *)
Lemma filter_duplicates_loop_raise key e docs keys result :
  (∀ d, d ∈ docs → key d = Raise e ∨ ∃ k, key d = Ok k) →
  (∃ d, d ∈ docs ∧ key d = Raise e) →
  DocumentSet.filter_duplicates_loop key docs keys result = Raise e.
Proof.
  revert keys result.
  induction docs as [|doc docs IH]; intros keys result Hall [d [Hd He]].
  - by apply elem_of_nil in Hd.
  - cbn [DocumentSet.filter_duplicates_loop].
    destruct (Hall doc) as [Hr|[k Hk]]; [by left|by rewrite Hr|].
    rewrite Hk. simpl.
    assert (DocumentSet.filter_duplicates_loop key docs keys result = Raise e
            ∧ DocumentSet.filter_duplicates_loop key docs ({[k]} ∪ keys)
                (result ++ [doc]) = Raise e) as [H1 H2].
    { apply elem_of_cons in Hd as [->|Hd]; [congruence|].
      split; apply IH; eauto; intros; apply Hall; by right. }
    by destruct (bool_decide (k ∉ keys)).
Qed.

Lemma keys_other_loop_total key kf docs keys_other :
  (∀ d, d ∈ docs → key d = Ok (kf d)) →
  ∃ ks, DocumentSet.keys_other_loop key docs keys_other = Ok ks
        ∧ ∀ x, x ∈ ks ↔ x ∈ keys_other ∨ x ∈ kf <$> docs.
Proof.
  revert keys_other. induction docs as [|doc docs IH]; intros keys_other Hkey.
  - exists keys_other. split; [done|]. intros x.
    rewrite fmap_nil, elem_of_nil. tauto.
  - cbn [DocumentSet.keys_other_loop]. rewrite (Hkey doc) by left. simpl.
    destruct (IH ({[kf doc]} ∪ keys_other)) as [ks [Hks Hin]].
    { intros d Hd. apply Hkey. by right. }
    exists ks. split; [done|]. intros x.
    rewrite Hin. set_solver.
Qed.

Lemma keys_other_loop_raise key e docs keys_other :
  (∀ d, d ∈ docs → key d = Raise e ∨ ∃ k, key d = Ok k) →
  (∃ d, d ∈ docs ∧ key d = Raise e) →
  DocumentSet.keys_other_loop key docs keys_other = Raise e.
Proof.
  revert keys_other.
  induction docs as [|doc docs IH]; intros keys_other Hall [d [Hd He]].
  - by apply elem_of_nil in Hd.
  - cbn [DocumentSet.keys_other_loop].
    destruct (Hall doc) as [Hr|[k Hk]]; [by left|by rewrite Hr|].
    rewrite Hk. simpl.
    apply elem_of_cons in Hd as [->|Hd]; [congruence|].
    apply IH; eauto. intros; apply Hall; by right.
Qed.

Lemma difference_loop_total key kf docs keys_other result :
  (∀ d, d ∈ docs → key d = Ok (kf d)) →
  DocumentSet.difference_loop key docs keys_other result
  = Ok (result ++ List.filter (λ d, bool_decide (kf d ∉ keys_other)) docs).
Proof.
  revert result. induction docs as [|doc docs IH]; intros result Hkey.
  - by rewrite app_nil_r.
  - cbn [DocumentSet.difference_loop List.filter].
    rewrite (Hkey doc) by left. simpl.
    assert (Hdocs : ∀ d, d ∈ docs → key d = Ok (kf d))
      by (intros d Hd; apply Hkey; by right).
    destruct (bool_decide (kf doc ∉ keys_other)); rewrite IH by done.
    + by rewrite <- app_assoc.
    + done.
Qed.

Lemma difference_loop_raise key e docs keys_other result :
  (∀ d, d ∈ docs → key d = Raise e ∨ ∃ k, key d = Ok k) →
  (∃ d, d ∈ docs ∧ key d = Raise e) →
  DocumentSet.difference_loop key docs keys_other result = Raise e.
Proof.
  revert result.
  induction docs as [|doc docs IH]; intros result Hall [d [Hd He]].
  - by apply elem_of_nil in Hd.
  - cbn [DocumentSet.difference_loop].
    destruct (Hall doc) as [Hr|[k Hk]]; [by left|by rewrite Hr|].
    rewrite Hk. simpl.
    assert (∀ r, DocumentSet.difference_loop key docs keys_other r = Raise e)
      as Hr.
    { intros r. apply elem_of_cons in Hd as [->|Hd]; [congruence|].
      apply IH; eauto. intros; apply Hall; by right. }
    destruct (bool_decide (k ∉ keys_other)); apply Hr.
Qed.

End loops.

(** ** [filter_duplicates], [union], [difference] *)

Lemma default_key_ok d :
  has_DocumentID d = true → DocumentSet.default_key d = Ok (id_value d).
Proof.
  unfold has_DocumentID, DocumentSet.default_key, id_value.
  by destruct (Document.id d).
Qed.

Lemma default_key_raise d :
  has_DocumentID d = false →
  DocumentSet.default_key d = Raise (AttributeError "id").
Proof.
  unfold has_DocumentID, DocumentSet.default_key.
  by destruct (Document.id d).
Qed.

Lemma default_key_cases (l : list Document.t) d :
  d ∈ l →
  DocumentSet.default_key d = Raise (AttributeError "id")
  ∨ ∃ k, DocumentSet.default_key d = Ok k.
Proof.
  intros _. destruct (has_DocumentID d) eqn:E.
  - right. eexists. by apply default_key_ok.
  - left. by apply default_key_raise.
Qed.

Lemma forallb_has_DocumentID_true (l : list Document.t) :
  forallb has_DocumentID l = true →
  ∀ d, d ∈ l → DocumentSet.default_key d = Ok (id_value d).
Proof.
  rewrite forallb_forall. intros Hall d Hd.
  apply default_key_ok, Hall. by apply list_elem_of_In.
Qed.

Lemma forallb_has_DocumentID_false (l : list Document.t) :
  forallb has_DocumentID l = false →
  ∃ d, d ∈ l ∧ DocumentSet.default_key d = Raise (AttributeError "id").
Proof.
  induction l as [|d l IH]; [done|]. simpl.
  destruct (has_DocumentID d) eqn:E; simpl.
  - intros [d' [Hd' Hr]]%IH. exists d'. split; [by right|done].
  - intros _. exists d. split; [by left|by apply default_key_raise].
Qed.

Section filter_duplicates.

Context {K : Type} `{Countable K}.

Lemma filter_duplicates_by_total (key : Document.t → exc K) kf C :
  (∀ d, d ∈ DocumentSet.docs C → key d = Ok (kf d)) →
  DocumentSet.filter_duplicates_by key C
  = Ok (DocumentSet.mk (first_occurrences [] kf (DocumentSet.docs C))).
Proof.
  intros Hkey. unfold DocumentSet.filter_duplicates_by.
  rewrite (filter_duplicates_loop_total key kf _ ∅ [] []); [done|done|].
  intros x. rewrite elem_of_nil. set_solver.
Qed.

Lemma filter_duplicates_Some C (k : Document.t → K) :
  DocumentSet.filter_duplicates C (Some k)
  = Ok (DocumentSet.mk (first_occurrences [] k (DocumentSet.docs C))).
Proof. by apply filter_duplicates_by_total. Qed.

Lemma difference_by_total (key : Document.t → exc K) kf A B :
  (∀ d, d ∈ DocumentSet.docs B → key d = Ok (kf d)) →
  (∀ d, d ∈ DocumentSet.docs A → key d = Ok (kf d)) →
  DocumentSet.difference_by key A B
  = Ok (DocumentSet.mk
          (List.filter (λ d, bool_decide (kf d ∉ kf <$> DocumentSet.docs B))
                       (DocumentSet.docs A))).
Proof.
  intros HB HA. unfold DocumentSet.difference_by.
  destruct (keys_other_loop_total key kf _ ∅ HB) as [ks [-> Hks]]. simpl.
  rewrite (difference_loop_total key kf) by done. simpl.
  do 2 f_equal. apply List.filter_ext. intros d.
  apply bool_decide_ext. rewrite Hks. set_solver.
Qed.

Lemma difference_Some A B (k : Document.t → K) :
  DocumentSet.difference A B (Some k)
  = Ok (DocumentSet.mk
          (List.filter (λ d, bool_decide (k d ∉ k <$> DocumentSet.docs B))
                       (DocumentSet.docs A))).
Proof. by apply difference_by_total. Qed.

End filter_duplicates.

(** With no key passed, the identifier values are the keys, and a document
    whose [id] is not a [DocumentID] makes the call raise. *)
Lemma filter_duplicates_None {K} `{Countable K} C :
  DocumentSet.filter_duplicates (K:=K) C None
  = if forallb has_DocumentID (DocumentSet.docs C)
    then DocumentSet.filter_duplicates C (Some id_value)
    else Raise (AttributeError "id").
Proof.
  destruct (forallb _ _) eqn:E.
  - rewrite filter_duplicates_Some. simpl.
    by apply filter_duplicates_by_total, forallb_has_DocumentID_true.
  - simpl. unfold DocumentSet.filter_duplicates_by.
    rewrite (filter_duplicates_loop_raise _ (AttributeError "id")); [done| |].
    + apply default_key_cases.
    + by apply forallb_has_DocumentID_false.
Qed.

Lemma difference_None {K} `{Countable K} A B :
  DocumentSet.difference (K:=K) A B None
  = if forallb has_DocumentID (DocumentSet.docs B ++ DocumentSet.docs A)
    then DocumentSet.difference A B (Some id_value)
    else Raise (AttributeError "id").
Proof.
  rewrite forallb_app.
  destruct (forallb _ (DocumentSet.docs B)) eqn:EB; cbn [andb].
  - destruct (forallb _ (DocumentSet.docs A)) eqn:EA.
    + rewrite difference_Some.
      by apply difference_by_total; apply forallb_has_DocumentID_true.
    + unfold DocumentSet.difference, DocumentSet.difference_by.
      destruct (keys_other_loop_total DocumentSet.default_key id_value
                  (DocumentSet.docs B) ∅) as [ks [-> _]];
        [by apply forallb_has_DocumentID_true|]. simpl.
      rewrite (difference_loop_raise _ (AttributeError "id")); [done| |].
      * apply default_key_cases.
      * by apply forallb_has_DocumentID_false.
  - unfold DocumentSet.difference, DocumentSet.difference_by.
    rewrite (keys_other_loop_raise _ (AttributeError "id")); [done| |].
    + apply default_key_cases.
    + by apply forallb_has_DocumentID_false.
Qed.

Lemma filter_key_first_occurrences {K} `{Countable K}
    (seen : list K) (k : Document.t → K) (l : list Document.t) (x : K)
    (p : Document.t → bool) :
  (∀ d, p d = true ↔ k d = x) →
  List.filter p (first_occurrences seen k l)
  = if bool_decide (x ∈ seen) then [] else take 1 (List.filter p l).
Proof.
  intros Hp. revert seen. induction l as [|d l IH]; intros seen.
  - rewrite first_occurrences_nil. simpl. by destruct (bool_decide _).
  - rewrite first_occurrences_cons, List.filter_app, IH. cbn [List.filter].
    destruct (p d) eqn:Epd.
    + apply Hp in Epd as Ekd. subst x.
      rewrite (bool_decide_eq_true_2 (k d ∈ seen ++ [k d]))
        by (rewrite elem_of_app, list_elem_of_singleton; tauto).
      case_bool_decide; [done|]. simpl. by rewrite Epd.
    + assert (k d ≠ x) as Hne by (intros Hk%Hp; congruence).
      assert (List.filter p (if bool_decide (k d ∈ seen) then [] else [d]) = [])
        as ->.
      { destruct (bool_decide (k d ∈ seen)); simpl; [done|]. by rewrite Epd. }
      simpl. apply (f_equal (λ b : bool, if b then _ else _)).
      apply bool_decide_ext. rewrite elem_of_app, list_elem_of_singleton.
      split; [|tauto]. intros [?| ->]; [done|]. by destruct Hne.
Qed.

(** C1. [C.filter_duplicates(k)] returns a document set in which no key
    occurs twice; it holds exactly the documents of [C] whose key has not
    occurred at an earlier position of [C], in their order in [C]. When no
    key is passed, the key of a document is its identifier value
    [document.id.id]. *)
Theorem filter_duplicates_first_occurrence_wins {K} `{Countable K}
    (C : DocumentSet.t) (k : Document.t → K) :
  (∃ R, DocumentSet.filter_duplicates C (Some k) = Ok R
        ∧ DocumentSet.docs R = first_occurrences [] k (DocumentSet.docs C)
        ∧ NoDup (k <$> DocumentSet.docs R)
        ∧ DocumentSet.docs R `sublist_of` DocumentSet.docs C)
  ∧ DocumentSet.filter_duplicates (K:=K) C None
    = (if forallb has_DocumentID (DocumentSet.docs C)
       then DocumentSet.filter_duplicates C (Some id_value)
       else Raise (AttributeError "id")).
Proof.
  split; [|apply filter_duplicates_None].
  eexists. split; [apply filter_duplicates_Some|]. simpl.
  split; [done|]. split.
  - apply first_occurrences_NoDup.
  - apply first_occurrences_sublist.
Qed.

(** C2. [A.union(B, k)] is [filter_duplicates(k)] applied to the documents
    of [A] followed by those of [B], for a key that is passed and for the
    default one. Its result is the result of [A.filter_duplicates(k)]
    followed by the documents of [B] whose key occurs neither in [A] nor
    at an earlier position of [B]. *)
Theorem union_is_filter_duplicates_of_concat {K} `{Countable K}
    (A B : DocumentSet.t) (k : Document.t → K) :
  DocumentSet.union A B (Some k)
  = DocumentSet.filter_duplicates
      (DocumentSet.mk (DocumentSet.docs A ++ DocumentSet.docs B)) (Some k)
  ∧ DocumentSet.union (K:=K) A B None
    = DocumentSet.filter_duplicates (K:=K)
        (DocumentSet.mk (DocumentSet.docs A ++ DocumentSet.docs B)) None
  ∧ (∃ RA RU,
        DocumentSet.filter_duplicates A (Some k) = Ok RA
        ∧ DocumentSet.union A B (Some k) = Ok RU
        ∧ DocumentSet.docs RU
          = DocumentSet.docs RA
            ++ first_occurrences (k <$> DocumentSet.docs A) k (DocumentSet.docs B)
        ∧ DocumentSet.docs RA ⊆ DocumentSet.docs RU)
  ∧ DocumentSet.union (K:=K) A B None
    = (if forallb has_DocumentID (DocumentSet.docs A ++ DocumentSet.docs B)
       then DocumentSet.union A B (Some id_value)
       else Raise (AttributeError "id")).
Proof.
  split; [done|]. split; [done|]. split.
  - eexists _, _. split; [apply filter_duplicates_Some|].
    split; [apply filter_duplicates_Some|]. simpl.
    rewrite first_occurrences_app. split; [done|].
    intros d Hd. apply elem_of_app. by left.
  - apply (filter_duplicates_None (K:=K)
             (DocumentSet.mk (DocumentSet.docs A ++ DocumentSet.docs B))).
Qed.

(** C3. [A.difference(B, k)] returns, in the order of [A], exactly the
    documents of [A] whose key is the key of no document of [B]: no
    document of the result has a key that occurs in [B], and when no key
    of [A] occurs in [B] all of [A] is returned, repeated keys included.
    When no key is passed, the key of a document is its identifier
    value. *)
Theorem difference_filters_by_other_keys {K} `{Countable K}
    (A B : DocumentSet.t) (k : Document.t → K) :
  (∃ R, DocumentSet.difference A B (Some k) = Ok R
        ∧ DocumentSet.docs R
          = List.filter (λ d, bool_decide (k d ∉ k <$> DocumentSet.docs B))
                        (DocumentSet.docs A)
        ∧ (∀ d, d ∈ DocumentSet.docs R
                ↔ d ∈ DocumentSet.docs A ∧ k d ∉ k <$> DocumentSet.docs B)
        ∧ DocumentSet.docs R `sublist_of` DocumentSet.docs A
        ∧ ((∀ d, d ∈ DocumentSet.docs A → k d ∉ k <$> DocumentSet.docs B) →
           DocumentSet.docs R = DocumentSet.docs A))
  ∧ DocumentSet.difference (K:=K) A B None
    = (if forallb has_DocumentID (DocumentSet.docs B ++ DocumentSet.docs A)
       then DocumentSet.difference A B (Some id_value)
       else Raise (AttributeError "id")).
Proof.
  split; [|apply difference_None].
  eexists. split; [apply difference_Some|]. simpl.
  split; [done|]. split; [|split].
  - intros d. rewrite list_elem_of_In, filter_In, <- list_elem_of_In.
    by rewrite bool_decide_eq_true.
  - generalize (DocumentSet.docs A). intros l.
    induction l as [|d l IH]; simpl; [done|].
    destruct (bool_decide _); [by apply sublist_skip|by apply sublist_cons].
  - generalize (DocumentSet.docs A). intros l Hall.
    induction l as [|d l IH]; simpl; [done|].
    rewrite bool_decide_eq_true_2 by (apply Hall; left).
    f_equal. apply IH. intros d' Hd'. apply Hall. by right.
Qed.

(** C9. [filter_duplicates] is idempotent: applying it to its own result,
    with the same key, returns that result again. *)
Theorem filter_duplicates_idempotent {K} `{Countable K}
    (C : DocumentSet.t) (key : option (Document.t → K)) (k : Document.t → K) :
  (DocumentSet.filter_duplicates C key
     ≫= λ R, DocumentSet.filter_duplicates R key)
  = DocumentSet.filter_duplicates C key
  ∧ ∃ R, DocumentSet.filter_duplicates C (Some k) = Ok R
         ∧ DocumentSet.filter_duplicates R (Some k) = Ok R.
Proof.
  split.
  - destruct key as [k'|].
    + rewrite filter_duplicates_Some. unfold mbind, exc_bind.
      rewrite filter_duplicates_Some. cbn [DocumentSet.docs].
      by rewrite first_occurrences_idemp.
    + rewrite filter_duplicates_None.
      destruct (forallb _ _) eqn:E; [|done].
      rewrite filter_duplicates_Some. unfold mbind, exc_bind.
      rewrite filter_duplicates_None. cbn [DocumentSet.docs].
      replace (forallb _ _) with true.
      * rewrite filter_duplicates_Some. cbn [DocumentSet.docs].
        by rewrite first_occurrences_idemp.
      * symmetry. apply forallb_forall. intros d Hd.
        rewrite forallb_forall in E. apply E.
        apply list_elem_of_In, first_occurrences_elem_of in Hd.
        by apply list_elem_of_In.
  - eexists. split; [apply filter_duplicates_Some|].
    rewrite filter_duplicates_Some. cbn [DocumentSet.docs].
    by rewrite first_occurrences_idemp.
Qed.

(** C10. [DocumentID()] has identifier value [None] and [is_doi] false.
    Under the default key every document with such an identifier has the
    key [None]; [filter_duplicates] keeps, of the documents with key
    [None], the first one only, so of two documents that were never
    parsed the second is dropped, whatever their other attributes. *)
Theorem unparsed_ids_share_key_None {K} `{Countable K} :
  DocumentID.id (DocumentID.__init__ None) = None
  ∧ DocumentID.is_doi (DocumentID.__init__ None) = false
  ∧ (∀ d, Document.id d = VDocumentID (DocumentID.__init__ None) →
          DocumentSet.default_key d = Ok None)
  ∧ (∀ C, forallb has_DocumentID (DocumentSet.docs C) = true →
          ∃ R, DocumentSet.filter_duplicates (K:=K) C None = Ok R
               ∧ List.filter (λ d, bool_decide (id_value d = None))
                             (DocumentSet.docs R)
                 = take 1 (List.filter (λ d, bool_decide (id_value d = None))
                                       (DocumentSet.docs C)))
  ∧ (∀ d1 d2,
        Document.id d1 = VDocumentID (DocumentID.__init__ None) →
        Document.id d2 = VDocumentID (DocumentID.__init__ None) →
        DocumentSet.filter_duplicates (K:=K) (DocumentSet.mk [d1; d2]) None
        = Ok (DocumentSet.mk [d1])).
Proof.
  split; [done|]. split; [done|]. split; [|split].
  - intros d Hd. unfold DocumentSet.default_key. by rewrite Hd.
  - intros C HC. rewrite filter_duplicates_None, HC, filter_duplicates_Some.
    eexists. split; [done|]. cbn [DocumentSet.docs].
    rewrite (filter_key_first_occurrences [] id_value _ None)
      by (intros d; apply bool_decide_eq_true).
    by rewrite bool_decide_eq_false_2 by (by intros ?%elem_of_nil).
  - intros d1 d2 H1 H2. rewrite filter_duplicates_None.
    assert (id_value d1 = None ∧ id_value d2 = None) as [E1 E2]
      by (unfold id_value; by rewrite H1, H2).
    cbn [DocumentSet.docs forallb]. unfold has_DocumentID. rewrite H1, H2.
    cbn [andb]. rewrite filter_duplicates_Some. cbn [DocumentSet.docs].
    rewrite !first_occurrences_cons, first_occurrences_nil, E1, E2.
    rewrite bool_decide_eq_false_2 by (by intros ?%elem_of_nil).
    by rewrite bool_decide_eq_true_2 by (by apply list_elem_of_singleton).
Qed.

(** ** [DocumentID] *)

Lemma truthy_false (v : option string) :
  truthy v = false ↔ v = None ∨ v = Some "".
Proof.
  destruct v as [[|c s]|]; simpl; split; try done; try tauto.
  - intros [?|?]; congruence.
Qed.

Lemma replace_from_no_occurrence (old new s : string) :
  occurs old s = false → replace_from old new 0 s = s.
Proof.
  induction s as [|c s IH]; [done|].
  cbn [occurs replace_from].
  intros [Hp Ho]%orb_false_elim. rewrite Hp. by rewrite IH.
Qed.

Lemma replace_no_occurrence (s old new : string) :
  old ≠ "" → occurs old s = false → replace s old new = s.
Proof.
  intros Hold Ho. destruct old; [done|].
  by apply replace_from_no_occurrence.
Qed.

Lemma replace_url_doi_prefix (r : string) :
  replace (url_doi +:+ r) url_doi "" = replace r url_doi "".
Proof. reflexivity. Qed.

Lemma replace_url_ieee_prefix (r : string) :
  replace (url_ieee +:+ r) url_ieee "" = replace r url_ieee "".
Proof. reflexivity. Qed.

Lemma replace_url_doi_ieee_prefix (r : string) :
  replace (url_ieee +:+ r) url_doi "" = url_ieee +:+ replace r url_doi "".
Proof. reflexivity. Qed.

Ltac run_action :=
  cbv beta iota zeta delta
    [mbind action_bind act_bind mret action_ret act_ret lift raise get modify
     try_except_KeyError getitem str_replace fst snd
     DocumentID.set_id DocumentID.set_is_doi DocumentID.id DocumentID.is_doi
     DocumentID.__init__].

(** C4, as stated, fails: a URL string that occurs after the front of the
    DOI value is removed as well. The DOI ["10.1/http://doi.org/x"] resolves
    to ["10.1/x"]; taking prefixes off the front would leave it as it is. *)
Lemma parse_bibtex_strips_front_only_counterexample :
  DocumentID.parse_bibtex {[ "doi" := "10.1/http://doi.org/x" ]}
    (DocumentID.__init__ None)
  = (Ok tt, DocumentID.mk (Some "10.1/x") true)
  ∧ strip_known_prefixes "10.1/http://doi.org/x" = "10.1/http://doi.org/x"
  ∧ ¬ (∀ (bibtex_entry : gmap string string) (v : string),
         bibtex_entry !! "doi" = Some v →
         DocumentID.parse_bibtex bibtex_entry (DocumentID.__init__ None)
         = (Ok tt, DocumentID.mk (Some (strip_known_prefixes v)) true)).
Proof.
  split; [by vm_compute|]. split; [by vm_compute|].
  intros Hclaim.
  specialize (Hclaim {[ "doi" := "10.1/http://doi.org/x" ]}
                     "10.1/http://doi.org/x").
  vm_compute in Hclaim. specialize (Hclaim eq_refl). discriminate Hclaim.
Qed.

(** C4, amended. For a BibTeX entry with a DOI field, the identifier is the
    DOI value from which every occurrence of ["http://doi.org/"] and then
    every occurrence of ["http://doi.ieeecomputersociety.org/"] has been
    removed, wherever it occurs, and [is_doi] is true. A value that
    consists of one of the two URLs followed by text in which neither URL
    occurs, or a value in which neither occurs, resolves to that text;
    ["http://doi.org/10.1/xyz"] resolves to ["10.1/xyz"]. *)
Theorem parse_bibtex_removes_urls
    (bibtex_entry : gmap string string) (v : string) (doc_id : option string) :
  bibtex_entry !! "doi" = Some v →
  DocumentID.parse_bibtex bibtex_entry (DocumentID.__init__ doc_id)
  = (Ok tt, DocumentID.mk (Some (replace (replace v url_doi "") url_ieee "")) true)
  ∧ (∀ r, occurs url_doi r = false → occurs url_ieee r = false →
          v = url_doi +:+ r ∨ v = url_ieee +:+ r ∨ v = r →
          replace (replace v url_doi "") url_ieee "" = r)
  ∧ replace (replace "http://doi.org/10.1/xyz" url_doi "") url_ieee ""
    = "10.1/xyz".
Proof.
  intros Hdoi. split; [|split].
  - unfold DocumentID.parse_bibtex. run_action.
    rewrite Hdoi. by run_action.
  - intros r Hd Hi [->|[->| ->]].
    + rewrite replace_url_doi_prefix, (replace_no_occurrence r url_doi) by done.
      by apply replace_no_occurrence.
    + rewrite replace_url_doi_ieee_prefix, (replace_no_occurrence r url_doi) by done.
      rewrite replace_url_ieee_prefix. by apply replace_no_occurrence.
    + rewrite (replace_no_occurrence r url_doi) by done.
      by apply replace_no_occurrence.
  - reflexivity.
Qed.

Lemma parse_bibtex_removes_urls_witness :
  DocumentID.parse_bibtex {[ "doi" := "http://doi.org/10.1/xyz" ]}
    (DocumentID.__init__ None)
  = (Ok tt, DocumentID.mk (Some "10.1/xyz") true).
Proof.
  destruct (parse_bibtex_removes_urls
              {[ "doi" := "http://doi.org/10.1/xyz" ]}
              "http://doi.org/10.1/xyz" None) as [Hp [Hr _]].
  - vm_compute. reflexivity.
  - rewrite Hp. rewrite (Hr "10.1/xyz"); [reflexivity| | |].
    + vm_compute. reflexivity.
    + vm_compute. reflexivity.
    + left. reflexivity.
Defined.

(** C5, as stated, fails: when the key ["info"] is missing, the handler of
    the caught [KeyError] looks the title up under ["info"] too, and the
    [KeyError] of that lookup reaches the caller. The empty result has no
    DOI, and parsing it raises [KeyError('info')]. *)
Lemma parse_dblp_missing_info_counterexample :
  dblp_doi ∅ = None
  ∧ DocumentID.parse_dblp ∅ (DocumentID.__init__ None)
    = (Raise (KeyError "info"), DocumentID.__init__ None)
  ∧ ¬ (∀ dblp_result : gmap string (gmap string string),
         dblp_doi dblp_result = None →
         ∃ self', DocumentID.parse_dblp dblp_result (DocumentID.__init__ None)
                  = (Ok tt, self')).
Proof.
  split; [done|]. split; [by vm_compute|].
  intros Hclaim. destruct (Hclaim ∅) as [self' Hself']; [done|].
  vm_compute in Hself'. discriminate Hself'.
Qed.

(** C5, amended. For a DBLP result whose ["info"] holds a ["doi"], the
    identifier is that value and [is_doi] is true. When ["info"] is there
    without a ["doi"] but with a ["title"], the [KeyError] of the DOI
    lookup is caught, the identifier is the title and [is_doi] is false.
    When the title is missing too, or ["info"] itself is, the [KeyError]
    of the title lookup is raised to the caller and the identifier is left
    as it was. *)
Theorem parse_dblp_doi_or_title
    (dblp_result : gmap string (gmap string string)) (info : gmap string string)
    (doc_id : option string) :
  dblp_result !! "info" = Some info →
  (∀ v, info !! "doi" = Some v →
        DocumentID.parse_dblp dblp_result (DocumentID.__init__ doc_id)
        = (Ok tt, DocumentID.mk (Some v) true))
  ∧ (∀ t, info !! "doi" = None → info !! "title" = Some t →
          DocumentID.parse_dblp dblp_result (DocumentID.__init__ doc_id)
          = (Ok tt, DocumentID.mk (Some t) false))
  ∧ (info !! "doi" = None → info !! "title" = None →
     DocumentID.parse_dblp dblp_result (DocumentID.__init__ doc_id)
     = (Raise (KeyError "title"), DocumentID.__init__ doc_id))
  ∧ (∀ r : gmap string (gmap string string), r !! "info" = None →
        DocumentID.parse_dblp r (DocumentID.__init__ doc_id)
        = (Raise (KeyError "info"), DocumentID.__init__ doc_id)).
Proof.
  intros Hinfo. unfold DocumentID.parse_dblp. repeat split.
  - intros v Hdoi. run_action. rewrite Hinfo. run_action. by rewrite Hdoi.
  - intros t Hdoi Ht. run_action. rewrite Hinfo. run_action.
    rewrite Hdoi. run_action. by rewrite Ht.
  - intros Hdoi Ht. run_action. rewrite Hinfo. run_action.
    rewrite Hdoi. run_action. by rewrite Ht.
  - intros r Hr. run_action. by rewrite Hr.
Qed.

Lemma parse_dblp_doi_or_title_witness :
  DocumentID.parse_dblp {[ "info" := {[ "title" := "A Title" ]} ]}
    (DocumentID.__init__ None)
  = (Ok tt, DocumentID.mk (Some "A Title") false)
  ∧ DocumentID.parse_dblp
      {[ "info" := {[ "title" := "A Title"; "doi" := "10.1/x" ]} ]}
      (DocumentID.__init__ None)
    = (Ok tt, DocumentID.mk (Some "10.1/x") true).
Proof.
  split.
  - apply (parse_dblp_doi_or_title
             {[ "info" := {[ "title" := "A Title" ]} ]}
             {[ "title" := "A Title" ]} None).
    + vm_compute. reflexivity.
    + vm_compute. reflexivity.
    + vm_compute. reflexivity.
  - apply (parse_dblp_doi_or_title
             {[ "info" := {[ "title" := "A Title"; "doi" := "10.1/x" ]} ]}
             {[ "title" := "A Title"; "doi" := "10.1/x" ]} None).
    + vm_compute. reflexivity.
    + vm_compute. reflexivity.
Defined.

(** C6, as stated, fails: an eid that is present but empty is passed over,
    like an empty DOI, and the title is taken. The record without DOI, with
    eid [""] and title ["T"] resolves to ["T"], not to the eid. *)
Lemma parse_scopus_empty_eid_counterexample :
  DocumentID.parse_scopus
    {| DocumentID.doi := None; DocumentID.eid := Some "";
       DocumentID.title := Some "T" |} (DocumentID.__init__ None)
  = (Ok tt, DocumentID.mk (Some "T") false)
  ∧ scopus_chain_as_stated
      {| DocumentID.doi := None; DocumentID.eid := Some "";
         DocumentID.title := Some "T" |}
    = DocumentID.mk (Some "") false
  ∧ ¬ (∀ a : DocumentID.scopus_abstract,
         DocumentID.parse_scopus a (DocumentID.__init__ None)
         = (Ok tt, scopus_chain_as_stated a)).
Proof.
  split; [done|]. split; [done|].
  intros Hclaim.
  specialize (Hclaim {| DocumentID.doi := None; DocumentID.eid := Some "";
                        DocumentID.title := Some "T" |}).
  vm_compute in Hclaim. discriminate Hclaim.
Qed.

(** C6, amended. For a Scopus record: a DOI that is present and not empty
    is the identifier, with [is_doi] true; otherwise an eid that is present
    and not empty is the identifier, with [is_doi] false; otherwise the
    title is, with [is_doi] false. The record with DOI [""], eid ["E123"]
    and title ["T"] resolves to ["E123"] with [is_doi] false. *)
Theorem parse_scopus_fallback_chain
    (a : DocumentID.scopus_abstract) (doc_id : option string) :
  (∀ d, DocumentID.doi a = Some d → d ≠ "" →
        DocumentID.parse_scopus a (DocumentID.__init__ doc_id)
        = (Ok tt, DocumentID.mk (Some d) true))
  ∧ (∀ e, DocumentID.doi a = None ∨ DocumentID.doi a = Some "" →
          DocumentID.eid a = Some e → e ≠ "" →
          DocumentID.parse_scopus a (DocumentID.__init__ doc_id)
          = (Ok tt, DocumentID.mk (Some e) false))
  ∧ (DocumentID.doi a = None ∨ DocumentID.doi a = Some "" →
     DocumentID.eid a = None ∨ DocumentID.eid a = Some "" →
     DocumentID.parse_scopus a (DocumentID.__init__ doc_id)
     = (Ok tt, DocumentID.mk (DocumentID.title a) false))
  ∧ DocumentID.parse_scopus
      {| DocumentID.doi := Some ""; DocumentID.eid := Some "E123";
         DocumentID.title := Some "T" |} (DocumentID.__init__ doc_id)
    = (Ok tt, DocumentID.mk (Some "E123") false).
Proof.
  unfold DocumentID.parse_scopus. repeat split.
  - intros d -> Hd. destruct d; [done|]. by run_action.
  - intros e Hdoi%truthy_false -> He. rewrite Hdoi.
    destruct e; [done|]. by run_action.
  - intros Hdoi%truthy_false Heid%truthy_false. rewrite Hdoi, Heid.
    by run_action.
Qed.

Lemma parse_scopus_fallback_chain_witness :
  DocumentID.parse_scopus
    {| DocumentID.doi := Some "10.1/x"; DocumentID.eid := Some "E1";
       DocumentID.title := Some "T" |} (DocumentID.__init__ None)
  = (Ok tt, DocumentID.mk (Some "10.1/x") true)
  ∧ DocumentID.parse_scopus
      {| DocumentID.doi := None; DocumentID.eid := Some "E1";
         DocumentID.title := Some "T" |} (DocumentID.__init__ None)
    = (Ok tt, DocumentID.mk (Some "E1") false)
  ∧ DocumentID.parse_scopus
      {| DocumentID.doi := None; DocumentID.eid := Some "";
         DocumentID.title := Some "T" |} (DocumentID.__init__ None)
    = (Ok tt, DocumentID.mk (Some "T") false).
Proof.
  split; [|split].
  - apply (parse_scopus_fallback_chain
             {| DocumentID.doi := Some "10.1/x"; DocumentID.eid := Some "E1";
                DocumentID.title := Some "T" |} None); [reflexivity|].
    intros Heq. discriminate Heq.
  - apply (parse_scopus_fallback_chain
             {| DocumentID.doi := None; DocumentID.eid := Some "E1";
                DocumentID.title := Some "T" |} None);
      [left; reflexivity|reflexivity|].
    intros Heq. discriminate Heq.
  - apply (parse_scopus_fallback_chain
             {| DocumentID.doi := None; DocumentID.eid := Some "";
                DocumentID.title := Some "T" |} None);
      [left; reflexivity|right; reflexivity].
Defined.

(** ** Constructors from [**kwargs] *)

Lemma dict_get_del_ne key key' (d : dict) :
  key ≠ key' → dict_get key (dict_del key' d) = dict_get key d.
Proof.
  intros Hne. induction d as [|[k v] d IH]; [done|]. simpl.
  destruct (String.eqb_spec k key') as [->|Hk]; simpl.
  - rewrite IH. destruct (String.eqb_spec key' key); [congruence|done].
  - by rewrite IH.
Qed.

Lemma dict_del_keys key (d : dict) :
  (dict_del key d).*1 = filter (λ k, k ≠ key) (d.*1).
Proof.
  induction d as [|[k v] d IH]; [done|].
  rewrite fmap_cons, filter_cons. cbn [dict_del fst].
  destruct (String.eqb_spec k key) as [->|Hk].
  - by rewrite decide_False by (by intros []).
  - rewrite decide_True by done. by rewrite fmap_cons, IH.
Qed.

Lemma dict_del_absent key (d : dict) :
  dict_get key d = None → dict_del key d = d.
Proof.
  induction d as [|[k v] d IH]; [done|]. simpl.
  destruct (String.eqb_spec k key); [done|]. intros Hd. by rewrite IH.
Qed.

(** The keys left after popping every name of [fields]. *)
Lemma remaining_keys (fields : list string) (kwargs : dict) :
  (foldl (λ d k, dict_del k d) kwargs fields).*1 = unexpected fields kwargs.
Proof.
  unfold unexpected. revert kwargs.
  induction fields as [|f fields IH]; intros kwargs; simpl.
  - induction (kwargs.*1) as [|k l IHl]; [done|].
    rewrite filter_cons_True by (by intros ?%elem_of_nil). by rewrite <- IHl.
  - rewrite IH, dict_del_keys, list_filter_filter.
    apply list_filter_iff. intros k. rewrite elem_of_cons. naive_solver.
Qed.

Lemma bind_pop_default {B} key default (f : value → action dict B) kwargs :
  (pop_default key default ≫= f) kwargs
  = f (from_option (λ v, v) default (dict_get key kwargs)) (dict_del key kwargs).
Proof.
  unfold mbind, action_bind, act_bind, pop_default.
  destruct (dict_get key kwargs) eqn:E; [done|]. simpl.
  by rewrite dict_del_absent.
Qed.

Lemma bind_pop_Some {B} key (f : value → action dict B) kwargs v :
  dict_get key kwargs = Some v →
  (pop key ≫= f) kwargs = f v (dict_del key kwargs).
Proof. intros E. unfold mbind, action_bind, act_bind, pop. by rewrite E. Qed.

Lemma bind_pop_None {B} key (f : value → action dict B) kwargs :
  dict_get key kwargs = None →
  (pop key ≫= f) kwargs = (Raise (KeyError key), kwargs).
Proof. intros E. unfold mbind, action_bind, act_bind, pop. by rewrite E. Qed.

Lemma reject_unexpected_then {B} (b : B) (kwargs : dict) :
  fst ((reject_unexpected ;; mret b) kwargs)
  = match kwargs.*1 with
    | [] => Ok b
    | k :: _ => Raise (KeyError ("got an unexpected keyword argument " +:+ k))
    end.
Proof. by destruct kwargs as [|[k v] kwargs]. Qed.

Lemma occurs_suffix (pre f : string) : occurs f (pre +:+ f) = true.
Proof.
  assert (Hself : ∀ s, startswith s s = true).
  { intros s. induction s as [|c s IH]; [done|].
    simpl. by rewrite Ascii.eqb_refl. }
  induction pre as [|c pre IH]; simpl.
  - destruct f; simpl; [done|]. by rewrite Ascii.eqb_refl, Hself.
  - rewrite IH. by destruct (startswith _ _).
Qed.

Ltac pop_defaults :=
  rewrite !bind_pop_default, reject_unexpected_then;
  rewrite ?dict_get_del_ne by discriminate.

Lemma Document_init_cases (kwargs : dict) :
  Document.__init__ kwargs
  = match dict_get "self" kwargs with
    | Some _ => Raise (multiple_values_for_self "Document.__init__")
    | None =>
        match dict_get "id" kwargs, dict_get "title" kwargs with
        | None, _ => Raise (KeyError "id")
        | Some _, None => Raise (KeyError "title")
        | Some _, Some _ =>
            match unexpected Document.fields kwargs with
            | [] => Ok (Document_of kwargs)
            | k :: _ =>
                Raise (KeyError ("got an unexpected keyword argument " +:+ k))
            end
        end
    end.
Proof.
  unfold Document.__init__, bind_self, Document_of, attr.
  destruct (dict_get "self" kwargs); [done|].
  destruct (dict_get "id" kwargs) as [vi|] eqn:Ei;
    [|by rewrite bind_pop_None].
  rewrite (bind_pop_Some _ _ _ _ Ei).
  destruct (dict_get "title" kwargs) as [vt|] eqn:Et.
  - rewrite (bind_pop_Some "title" _ _ vt)
      by (by rewrite dict_get_del_ne by discriminate).
    pop_defaults.
    by rewrite <- (remaining_keys Document.fields kwargs).
  - by rewrite bind_pop_None by (by rewrite dict_get_del_ne by discriminate).
Qed.

Lemma Author_init_cases (kwargs : dict) :
  Author.__init__ kwargs
  = match dict_get "self" kwargs with
    | Some _ => Raise (multiple_values_for_self "Author.__init__")
    | None =>
        match dict_get "name" kwargs with
        | None => Raise (KeyError "name")
        | Some _ =>
            match unexpected Author.fields kwargs with
            | [] => Ok (Author_of kwargs)
            | k :: _ =>
                Raise (KeyError ("got an unexpected keyword argument " +:+ k))
            end
        end
    end.
Proof.
  unfold Author.__init__, bind_self, Author_of, attr.
  destruct (dict_get "self" kwargs); [done|].
  rewrite bind_pop_default.
  destruct (dict_get "name" kwargs) as [vn|] eqn:En.
  - rewrite (bind_pop_Some "name" _ _ vn)
      by (by rewrite dict_get_del_ne by discriminate).
    pop_defaults.
    by rewrite <- (remaining_keys Author.fields kwargs).
  - by rewrite bind_pop_None by (by rewrite dict_get_del_ne by discriminate).
Qed.

Lemma Affiliation_init_cases (kwargs : dict) :
  Affiliation.__init__ kwargs
  = match dict_get "self" kwargs with
    | Some _ => Raise (multiple_values_for_self "Affiliation.__init__")
    | None =>
        match dict_get "name" kwargs with
        | None => Raise (KeyError "name")
        | Some _ =>
            match unexpected Affiliation.fields kwargs with
            | [] => Ok (Affiliation_of kwargs)
            | k :: _ =>
                Raise (KeyError ("got an unexpected keyword argument " +:+ k))
            end
        end
    end.
Proof.
  unfold Affiliation.__init__, bind_self, Affiliation_of, attr.
  destruct (dict_get "self" kwargs); [done|].
  destruct (dict_get "name" kwargs) as [vn|] eqn:En;
    [|by rewrite bind_pop_None].
  rewrite (bind_pop_Some _ _ _ _ En).
  pop_defaults.
  by rewrite <- (remaining_keys Affiliation.fields kwargs).
Qed.

(** C7, as stated, fails: when a required name is missing as well, the
    [KeyError] names the missing required name, not the unrecognised one.
    [Document(bogus=1)] raises [KeyError('id')]. *)
Lemma init_names_unexpected_counterexample :
  Document.__init__ [("bogus", VInt 1)] = Raise (KeyError "id")
  ∧ occurs "bogus" "id" = false
  ∧ ¬ (∀ (kwargs : dict) (f : string),
         f ∈ kwargs.*1 → f ∉ Document.fields →
         ∃ msg, Document.__init__ kwargs = Raise (KeyError msg)
                ∧ occurs f msg = true).
Proof.
  split; [done|]. split; [done|].
  intros Hclaim.
  destruct (Hclaim [("bogus", VInt 1)] "bogus") as [msg [Hmsg Hocc]].
  - by left.
  - unfold Document.fields. rewrite !elem_of_cons, elem_of_nil.
    intros Hin. repeat (destruct Hin as [Hin|Hin]; [discriminate Hin|]). done.
  - vm_compute in Hmsg. injection Hmsg as <-. vm_compute in Hocc.
    discriminate Hocc.
Qed.

Lemma find_missing_None (required : list string) (kwargs : dict) :
  (∀ r, r ∈ required → is_Some (dict_get r kwargs)) →
  List.find (missing kwargs) required = None.
Proof.
  induction required as [|r required IH]; intros Hreq; [done|]. simpl.
  unfold missing at 1. destruct (Hreq r) as [v ->]; [by left|].
  apply IH. intros r' Hr'. apply Hreq. by right.
Qed.

Lemma dict_get_None (key : string) (d : dict) :
  dict_get key d = None ↔ key ∉ d.*1.
Proof.
  induction d as [|[k' v'] d IH].
  - simpl. split; [by intros _ ?%elem_of_nil|done].
  - rewrite fmap_cons, elem_of_cons. cbn [dict_get fst].
    destruct (String.eqb_spec k' key) as [->|Hne].
    + split; [done|]. intros Hn. destruct Hn. by left.
    + rewrite IH. split; [|tauto]. intros Hn [->|?]; [done|tauto].
Qed.

Lemma find_missing_first (present later : list string) (r : string)
    (kwargs : dict) :
  (∀ r', r' ∈ present → is_Some (dict_get r' kwargs)) →
  dict_get r kwargs = None →
  List.find (missing kwargs) (present ++ r :: later) = Some r.
Proof.
  intros Hpresent Hr. induction present as [|p present IH]; simpl.
  - unfold missing at 1. by rewrite Hr.
  - unfold missing at 1. destruct (Hpresent p) as [v ->]; [by left|].
    apply IH. intros r' Hr'. apply Hpresent. by right.
Qed.

Lemma checks_field_names_of_outcome {T} (init : dict → exc T) method
    of_kwargs fields required :
  (∀ kwargs,
     init kwargs = init_outcome method of_kwargs fields required kwargs) →
  checks_field_names init of_kwargs fields required.
Proof.
  intros Hinit kwargs. rewrite Hinit. unfold init_outcome. split.
  - intros Hself. destruct (dict_get "self" kwargs) eqn:E; [by eexists|].
    by apply dict_get_None in E.
  - intros Hself. rewrite (proj2 (dict_get_None "self" kwargs) Hself).
    split; [|split; [|split]].
    + intros Hne. destruct (List.find _ _); [by eauto|].
      destruct (unexpected _ _); [done|by eauto].
    + intros f rest Hf Hreq. rewrite find_missing_None, Hf by done.
      split; [done|apply occurs_suffix].
    + intros present r later -> Hpresent Hr.
      by rewrite find_missing_first.
    + intros Hnone Hreq. by rewrite find_missing_None, Hnone.
Qed.

(** C7, amended. For [Document], [Author] and [Affiliation]: a keyword
    named [self] is refused by the call with a [TypeError]. Otherwise:
    passing any unrecognised name makes the constructor raise a
    [KeyError]; when all required names are passed, the message is
    ['got an unexpected keyword argument '] followed by the first
    unrecognised name in the order passed; when a required name is missing,
    the [KeyError] names the first missing one in the order the constructor
    reads them, [id] before [title]; passing recognised names only, all
    required ones among them, builds the object. *)
Theorem init_checks_field_names :
  checks_field_names Document.__init__ Document_of
    Document.fields ["id"; "title"]
  ∧ checks_field_names Author.__init__ Author_of
      Author.fields ["name"]
  ∧ checks_field_names Affiliation.__init__ Affiliation_of
      Affiliation.fields ["name"].
Proof.
  split; [|split].
  - apply (checks_field_names_of_outcome _ "Document.__init__").
    intros kwargs. rewrite Document_init_cases.
    unfold init_outcome, missing. simpl.
    destruct (dict_get "self" kwargs); [done|].
    destruct (dict_get "id" kwargs); [|done].
    by destruct (dict_get "title" kwargs).
  - apply (checks_field_names_of_outcome _ "Author.__init__").
    intros kwargs. rewrite Author_init_cases.
    unfold init_outcome, missing. simpl.
    destruct (dict_get "self" kwargs); [done|].
    by destruct (dict_get "name" kwargs).
  - apply (checks_field_names_of_outcome _ "Affiliation.__init__").
    intros kwargs. rewrite Affiliation_init_cases.
    unfold init_outcome, missing. simpl.
    destruct (dict_get "self" kwargs); [done|].
    by destruct (dict_get "name" kwargs).
Qed.

Lemma init_checks_field_names_witness :
  Document.__init__
    [("title", VStr "T"); ("id", VDocumentID (DocumentID.__init__ None));
     ("bogus", VInt 1)]
  = Raise (KeyError "got an unexpected keyword argument bogus")
  ∧ Document.__init__
      [("title", VStr "T"); ("id", VDocumentID (DocumentID.__init__ None))]
    = Ok (Document_of
            [("title", VStr "T"); ("id", VDocumentID (DocumentID.__init__ None))])
  ∧ Document.__init__
      [("bogus", VInt 1); ("id", VDocumentID (DocumentID.__init__ None))]
    = Raise (KeyError "title")
  ∧ (∃ msg, Author.__init__ [("name", VStr "N"); ("bogus", VInt 1)]
            = Raise (KeyError msg))
  ∧ (∃ msg, Author.__init__ [("name", VStr "N"); ("self", VInt 1)]
            = Raise (TypeError msg))
  ∧ Affiliation.__init__ [("name", VStr "U"); ("city", VStr "X")]
    = Ok (Affiliation_of [("name", VStr "U"); ("city", VStr "X")]).
Proof.
  assert (Hno_self : ∀ kwargs : dict,
            dict_get "self" kwargs = None → "self" ∉ kwargs.*1)
    by (intros kwargs; apply dict_get_None).
  destruct init_checks_field_names as [HD [HA HF]].
  split; [|split; [|split; [|split; [|split]]]].
  - apply (HD [("title", VStr "T");
               ("id", VDocumentID (DocumentID.__init__ None));
               ("bogus", VInt 1)]) with (rest := []).
    + apply Hno_self. reflexivity.
    + vm_compute. reflexivity.
    + intros r Hr. apply list_elem_of_In in Hr.
      destruct Hr as [<-|[<-|[]]]; vm_compute; eexists; reflexivity.
  - apply (HD [("title", VStr "T");
               ("id", VDocumentID (DocumentID.__init__ None))]).
    + apply Hno_self. reflexivity.
    + vm_compute. reflexivity.
    + intros r Hr. apply list_elem_of_In in Hr.
      destruct Hr as [<-|[<-|[]]]; vm_compute; eexists; reflexivity.
  - apply (proj2 (HD [("bogus", VInt 1);
                      ("id", VDocumentID (DocumentID.__init__ None))]))
      with (present := ["id"]) (later := []).
    + apply Hno_self. reflexivity.
    + reflexivity.
    + intros r Hr. apply list_elem_of_In in Hr.
      destruct Hr as [<-|[]]; vm_compute; eexists; reflexivity.
    + reflexivity.
  - apply (proj2 (HA [("name", VStr "N"); ("bogus", VInt 1)])).
    + apply Hno_self. reflexivity.
    + vm_compute. intros Heq. discriminate Heq.
  - apply (proj1 (HA [("name", VStr "N"); ("self", VInt 1)])).
    right. left.
  - apply (HF [("name", VStr "U"); ("city", VStr "X")]).
    + apply Hno_self. reflexivity.
    + vm_compute. reflexivity.
    + intros r Hr. apply list_elem_of_In in Hr.
      destruct Hr as [<-|[]]; vm_compute; eexists; reflexivity.
Defined.

(** ** [filter] *)

Lemma filter_true (l : list Document.t) : List.filter (λ _, true) l = l.
Proof. induction l as [|d l IH]; [done|]. simpl. by rewrite IH. Qed.

Lemma filter_sublist (p : Document.t → bool) (l : list Document.t) :
  List.filter p l `sublist_of` l.
Proof.
  induction l as [|d l IH]; simpl; [done|].
  destruct (p d); [by apply sublist_skip|by apply sublist_cons].
Qed.

(** C8. [C.filter(p)] returns a new [DocumentSet] that holds, in the order
    of [C], exactly the documents [d] of [C] with [p(d)] true; [C] itself,
    and every other object, is as it was before the call; with a predicate
    that is always true the result has the documents of [C], in the same
    order. *)
Theorem filter_keeps_matching_documents
    (σ : gmap positive DocumentSet.t) (self : positive) (C : DocumentSet.t)
    (predicate : Document.t → bool) :
  σ !! self = Some C →
  (∃ r R σ',
      Store.filter self predicate σ = Some (r, σ')
      ∧ σ !! r = None
      ∧ σ' !! r = Some R
      ∧ DocumentSet.docs R = List.filter predicate (DocumentSet.docs C)
      ∧ (∀ d, d ∈ DocumentSet.docs R
              ↔ d ∈ DocumentSet.docs C ∧ predicate d = true)
      ∧ DocumentSet.docs R `sublist_of` DocumentSet.docs C
      ∧ σ' !! self = Some C
      ∧ (∀ r', r' ≠ r → σ' !! r' = σ !! r'))
  ∧ (∃ r σ', Store.filter self (λ _, true) σ = Some (r, σ')
             ∧ DocumentSet.docs <$> σ' !! r = Some (DocumentSet.docs C)).
Proof.
  intros Hself. unfold Store.filter, Store.new. rewrite Hself. simpl.
  assert (Hnew : σ !! fresh (dom σ) = None)
    by apply not_elem_of_dom, is_fresh.
  split.
  - eexists _, _, _. split; [done|]. split; [done|].
    split; [apply lookup_insert_eq|]. simpl. split; [done|].
    split; [|split; [|split]].
    + intros d. by rewrite list_elem_of_In, filter_In, <- list_elem_of_In.
    + apply filter_sublist.
    + rewrite lookup_insert_ne; [done|]. intros Heq. congruence.
    + intros r' Hr'. by rewrite lookup_insert_ne.
  - eexists _, _. split; [done|].
    rewrite lookup_insert_eq. simpl. by rewrite filter_true.
Qed.

Lemma filter_keeps_matching_documents_witness :
  ∃ r σ',
    Store.filter 1%positive has_DocumentID
      {[ 1%positive := DocumentSet.mk [mkdoc VNone "docA";
                                       mkdoc (doi_id "10.1/x") "docB"] ]}
    = Some (r, σ')
    ∧ DocumentSet.docs <$> σ' !! r = Some [mkdoc (doi_id "10.1/x") "docB"]
    ∧ DocumentSet.docs <$> σ' !! 1%positive
      = Some [mkdoc VNone "docA"; mkdoc (doi_id "10.1/x") "docB"].
Proof.
  destruct (filter_keeps_matching_documents
              {[ 1%positive := DocumentSet.mk [mkdoc VNone "docA";
                                               mkdoc (doi_id "10.1/x") "docB"] ]}
              1%positive
              (DocumentSet.mk [mkdoc VNone "docA"; mkdoc (doi_id "10.1/x") "docB"])
              has_DocumentID)
    as [[r [R [σ' [Hcall [_ [HR [Hdocs [_ [_ [Hself _]]]]]]]]]] _].
  - vm_compute. reflexivity.
  - exists r, σ'. split; [exact Hcall|]. split.
    + rewrite HR. simpl. rewrite Hdocs. reflexivity.
    + rewrite Hself. reflexivity.
Defined.

(** ** The [DocumentSet] statements at the specification's scenario *)

Lemma filter_duplicates_first_occurrence_wins_witness :
  ∃ R, DocumentSet.filter_duplicates
         (DocumentSet.mk [mkdoc (doi_id "10.1/x") "docA";
                          mkdoc (title_id "Same Title") "docB";
                          mkdoc (doi_id "10.1/x") "docC"])
         (Some id_value) = Ok R
       ∧ DocumentSet.docs R = [mkdoc (doi_id "10.1/x") "docA";
                               mkdoc (title_id "Same Title") "docB"].
Proof.
  destruct (filter_duplicates_first_occurrence_wins
              (DocumentSet.mk [mkdoc (doi_id "10.1/x") "docA";
                               mkdoc (title_id "Same Title") "docB";
                               mkdoc (doi_id "10.1/x") "docC"])
              id_value) as [[R [HR [Hdocs _]]] _].
  exists R. split; [exact HR|]. rewrite Hdocs. vm_compute. reflexivity.
Defined.

Lemma union_is_filter_duplicates_of_concat_witness :
  ∃ RU, DocumentSet.union
          (DocumentSet.mk [mkdoc (doi_id "10.1/x") "docA";
                           mkdoc (title_id "Same Title") "docB"])
          (DocumentSet.mk [mkdoc (doi_id "10.1/x") "docC";
                           mkdoc (title_id "Other Title") "docD";
                           mkdoc (title_id "Other Title") "docE"])
          (Some id_value) = Ok RU
        ∧ DocumentSet.docs RU = [mkdoc (doi_id "10.1/x") "docA";
                                 mkdoc (title_id "Same Title") "docB";
                                 mkdoc (title_id "Other Title") "docD"].
Proof.
  destruct (union_is_filter_duplicates_of_concat
              (DocumentSet.mk [mkdoc (doi_id "10.1/x") "docA";
                               mkdoc (title_id "Same Title") "docB"])
              (DocumentSet.mk [mkdoc (doi_id "10.1/x") "docC";
                               mkdoc (title_id "Other Title") "docD";
                               mkdoc (title_id "Other Title") "docE"])
              id_value) as [_ [_ [[RA [RU [HRA [HRU [Hdocs _]]]]] _]]].
  exists RU. split; [exact HRU|]. rewrite Hdocs.
  vm_compute in HRA. injection HRA as <-. vm_compute. reflexivity.
Defined.

Lemma difference_filters_by_other_keys_witness :
  ∃ R, DocumentSet.difference
         (DocumentSet.mk [mkdoc (title_id "Same Title") "docA";
                          mkdoc (title_id "Same Title") "docB"])
         (DocumentSet.mk [mkdoc (doi_id "10.1/x") "docC"])
         (Some id_value) = Ok R
       ∧ DocumentSet.docs R = [mkdoc (title_id "Same Title") "docA";
                               mkdoc (title_id "Same Title") "docB"].
Proof.
  destruct (difference_filters_by_other_keys
              (DocumentSet.mk [mkdoc (title_id "Same Title") "docA";
                               mkdoc (title_id "Same Title") "docB"])
              (DocumentSet.mk [mkdoc (doi_id "10.1/x") "docC"])
              id_value) as [[R [HR [_ [_ [_ Hall]]]]] _].
  exists R. split; [exact HR|]. apply Hall.
  intros d Hd. apply list_elem_of_In in Hd.
  destruct Hd as [<-|[<-|[]]]; intros Hin; apply list_elem_of_In in Hin;
    destruct Hin as [Hin|[]]; discriminate Hin.
Defined.

Lemma filter_duplicates_idempotent_witness :
  ∃ R, DocumentSet.filter_duplicates
         (DocumentSet.mk [mkdoc (doi_id "10.1/x") "docA";
                          mkdoc (doi_id "10.1/x") "docC"])
         (Some id_value) = Ok R
       ∧ DocumentSet.filter_duplicates R (Some id_value) = Ok R.
Proof.
  exact (proj2 (filter_duplicates_idempotent
                  (DocumentSet.mk [mkdoc (doi_id "10.1/x") "docA";
                                   mkdoc (doi_id "10.1/x") "docC"])
                  None id_value)).
Defined.

Lemma unparsed_ids_share_key_None_witness :
  DocumentSet.filter_duplicates (K:=nat)
    (DocumentSet.mk [mkdoc (VDocumentID (DocumentID.__init__ None)) "On Sets";
                     mkdoc (VDocumentID (DocumentID.__init__ None)) "On Maps"])
    None
  = Ok (DocumentSet.mk
          [mkdoc (VDocumentID (DocumentID.__init__ None)) "On Sets"]).
Proof.
  apply (unparsed_ids_share_key_None (K:=nat)); reflexivity.
Defined.

(** * Further properties *)

(** ** More on first occurrences *)

Section first_occurrences_more.

Context {K : Type} `{Countable K}.
Implicit Types (k : Document.t → K) (seen : list K) (l : list Document.t).

(** Only the membership of the keys of [l] in [seen] matters. *)
Lemma first_occurrences_ext seen1 seen2 k l :
  (∀ x, x ∈ k <$> l → x ∈ seen1 ↔ x ∈ seen2) →
  first_occurrences seen1 k l = first_occurrences seen2 k l.
Proof.
  revert seen1 seen2. induction l as [|d l IH]; intros seen1 seen2 Hseen.
  - by rewrite !first_occurrences_nil.
  - rewrite !first_occurrences_cons. f_equal.
    + rewrite (bool_decide_ext (k d ∈ seen1) (k d ∈ seen2)); [done|].
      apply Hseen. rewrite fmap_cons. by left.
    + apply IH. intros x Hx. rewrite !elem_of_app.
      rewrite (Hseen x) by (rewrite fmap_cons; by right). done.
Qed.

Lemma first_occurrences_all_seen seen k l :
  (∀ x, x ∈ k <$> l → x ∈ seen) → first_occurrences seen k l = [].
Proof.
  revert seen. induction l as [|d l IH]; intros seen Hseen.
  - by rewrite first_occurrences_nil.
  - rewrite first_occurrences_cons.
    rewrite bool_decide_eq_true_2 by (apply Hseen; rewrite fmap_cons; by left).
    simpl. apply IH. intros x Hx. rewrite elem_of_app. left.
    apply Hseen. rewrite fmap_cons. by right.
Qed.

(** Keeping first occurrences again, after more keys have been seen. *)
Lemma first_occurrences_twice seen seen' k l :
  (∀ x, x ∈ seen' → x ∈ seen) →
  first_occurrences seen k (first_occurrences seen' k l)
  = first_occurrences seen k l.
Proof.
  revert seen seen'. induction l as [|d l IH]; intros seen seen' Hsub.
  - by rewrite !first_occurrences_nil.
  - rewrite (first_occurrences_cons seen'), (first_occurrences_cons seen).
    case_bool_decide as Hd'; simpl.
    + rewrite (bool_decide_eq_true_2 (k d ∈ seen)) by auto. simpl.
      rewrite <- (IH (seen ++ [k d]) (seen' ++ [k d]))
        by (intros x; rewrite !elem_of_app; intros [?|?]; auto).
      apply first_occurrences_ext. intros x _.
      rewrite elem_of_app, list_elem_of_singleton.
      split; [by left|]. intros [?| ->]; auto.
    + rewrite first_occurrences_cons. f_equal.
      apply IH. intros x. rewrite !elem_of_app. intros [?|?]; auto.
Qed.

(** With more keys seen, fewer documents are kept. *)
Lemma first_occurrences_mono seen seen' k l :
  (∀ x, x ∈ seen → x ∈ seen') →
  first_occurrences seen' k l `sublist_of` first_occurrences seen k l.
Proof.
  revert seen seen'. induction l as [|d l IH]; intros seen seen' Hsub.
  - by rewrite !first_occurrences_nil.
  - rewrite !first_occurrences_cons.
    apply sublist_app.
    + case_bool_decide as Hd'; case_bool_decide as Hd; try done.
      * apply sublist_nil_l.
      * destruct Hd'. auto.
    + apply IH. intros x. rewrite !elem_of_app. intros [?|?]; auto.
Qed.

(** A predicate that is a function of the key may be applied before or
    after. *)
Lemma first_occurrences_filter_key seen k l (p : Document.t → bool) (g : K → bool) :
  (∀ d, p d = g (k d)) →
  first_occurrences seen k (List.filter p l)
  = List.filter p (first_occurrences seen k l).
Proof.
  intros Hp. revert seen. induction l as [|d l IH]; intros seen.
  - by rewrite first_occurrences_nil.
  - rewrite first_occurrences_cons, List.filter_app. cbn [List.filter].
    destruct (p d) eqn:Epd.
    + rewrite first_occurrences_cons, IH. f_equal.
      case_bool_decide; simpl; [done|]. by rewrite Epd.
    + rewrite IH.
      assert (List.filter p (if bool_decide (k d ∈ seen) then [] else [d]) = [])
        as ->.
      { case_bool_decide; simpl; [done|]. by rewrite Epd. }
      simpl. rewrite <- !IH. apply first_occurrences_ext.
      intros x Hx. rewrite elem_of_app, list_elem_of_singleton.
      split; [by left|]. intros [?| ->]; [done|].
      apply list_elem_of_fmap in Hx as [d' [Hk Hd']].
      apply list_elem_of_In, filter_In in Hd' as [_ Hpd'].
      rewrite Hp, <- Hk, <- Hp in Hpd'. congruence.
Qed.

(** In general, applying the predicate afterwards keeps no more. *)
Lemma filter_first_occurrences_sublist seen k l (p : Document.t → bool) :
  List.filter p (first_occurrences seen k l)
  `sublist_of` first_occurrences seen k (List.filter p l).
Proof.
  revert seen. induction l as [|d l IH]; intros seen.
  - by rewrite first_occurrences_nil.
  - rewrite first_occurrences_cons, List.filter_app. cbn [List.filter].
    destruct (p d) eqn:Epd.
    + rewrite first_occurrences_cons. apply sublist_app; [|apply IH].
      case_bool_decide; simpl; [done|]. by rewrite Epd.
    + assert (List.filter p (if bool_decide (k d ∈ seen) then [] else [d]) = [])
        as ->.
      { case_bool_decide; simpl; [done|]. by rewrite Epd. }
      simpl. etrans; [apply IH|].
      apply first_occurrences_mono. intros x. rewrite elem_of_app. by left.
Qed.

End first_occurrences_more.

(** ** How the operations of [DocumentSet] compose *)

Section algebra.

Context {K : Type} `{Countable K}.
Implicit Types (A B C : DocumentSet.t) (k : Document.t → K).

Lemma union_Some A B k :
  DocumentSet.union A B (Some k)
  = Ok (DocumentSet.mk
          (first_occurrences [] k (DocumentSet.docs A ++ DocumentSet.docs B))).
Proof. unfold DocumentSet.union. by rewrite filter_duplicates_Some. Qed.

Lemma exc_bind_Ok {X Y} (x : X) (f : X → exc Y) : (Ok x ≫= f) = f x.
Proof. done. Qed.

Lemma first_occurrences_seen_keys seen k l l' :
  first_occurrences (seen ++ (k <$> first_occurrences seen k l)) k l'
  = first_occurrences (seen ++ (k <$> l)) k l'.
Proof.
  apply first_occurrences_ext. intros x _.
  symmetry. apply first_occurrences_keys.
Qed.

Lemma filter_not_in_ext k (l1 l2 l : list Document.t) :
  (∀ x, x ∈ k <$> l1 ↔ x ∈ k <$> l2) →
  List.filter (λ d, bool_decide (k d ∉ k <$> l1)) l
  = List.filter (λ d, bool_decide (k d ∉ k <$> l2)) l.
Proof.
  intros Hkeys. apply List.filter_ext. intros d.
  apply bool_decide_ext. by rewrite Hkeys.
Qed.

Lemma first_occurrences_keys_nil k (l : list Document.t) x :
  x ∈ k <$> first_occurrences [] k l ↔ x ∈ k <$> l.
Proof. symmetry. apply (first_occurrences_keys [] k l x). Qed.

End algebra.

(** X1. No operation returns more documents than it was given:
    [len(C.filter(p)) <= len(C)], [len(A.filter_duplicates(k)) <= len(A)],
    [len(A.difference(B, k)) <= len(A)], and [A.union(B, k)] has at least
    the documents of [A.filter_duplicates(k)] and at most [len(B)] more. *)
Theorem len_never_grows {K} `{Countable K}
    (A B : DocumentSet.t) (k : Document.t → K) (p : Document.t → bool) :
  (DocumentSet.__len__ (DocumentSet.filter A p) ≤ DocumentSet.__len__ A)%nat
  ∧ ∃ RA RU RD,
      DocumentSet.filter_duplicates A (Some k) = Ok RA
      ∧ DocumentSet.union A B (Some k) = Ok RU
      ∧ DocumentSet.difference A B (Some k) = Ok RD
      ∧ (DocumentSet.__len__ RA ≤ DocumentSet.__len__ A)%nat
      ∧ (DocumentSet.__len__ RA ≤ DocumentSet.__len__ RU)%nat
      ∧ (DocumentSet.__len__ RU
         ≤ DocumentSet.__len__ RA + DocumentSet.__len__ B)%nat
      ∧ (DocumentSet.__len__ RD ≤ DocumentSet.__len__ A)%nat.
Proof.
  unfold DocumentSet.__len__. split.
  - apply sublist_length, filter_sublist.
  - eexists _, _, _.
    split; [apply filter_duplicates_Some|].
    split; [apply union_Some|].
    split; [apply difference_Some|].
    cbn [DocumentSet.docs]. rewrite first_occurrences_app, length_app.
    split; [apply sublist_length, first_occurrences_sublist|].
    split; [lia|]. split.
    + apply Nat.add_le_mono_l, sublist_length, first_occurrences_sublist.
    + apply sublist_length, filter_sublist.
Qed.

(** X2. Deduplication loses no key: the keys of [A.filter_duplicates(k)]
    are the keys of [A]; the keys of [A.union(B, k)] are those of [A]
    together with those of [B]; the keys of [A.difference(B, k)] are the
    keys of [A] that are not keys of [B]. *)
Theorem keys_of_results {K} `{Countable K}
    (A B : DocumentSet.t) (k : Document.t → K) :
  ∃ RA RU RD,
    DocumentSet.filter_duplicates A (Some k) = Ok RA
    ∧ DocumentSet.union A B (Some k) = Ok RU
    ∧ DocumentSet.difference A B (Some k) = Ok RD
    ∧ (∀ x, x ∈ k <$> DocumentSet.docs RA ↔ x ∈ k <$> DocumentSet.docs A)
    ∧ (∀ x, x ∈ k <$> DocumentSet.docs RU
            ↔ x ∈ k <$> DocumentSet.docs A ∨ x ∈ k <$> DocumentSet.docs B)
    ∧ (∀ x, x ∈ k <$> DocumentSet.docs RD
            ↔ x ∈ k <$> DocumentSet.docs A ∧ x ∉ k <$> DocumentSet.docs B).
Proof.
  eexists _, _, _.
  split; [apply filter_duplicates_Some|].
  split; [apply union_Some|].
  split; [apply difference_Some|].
  cbn [DocumentSet.docs]. split; [|split].
  - intros x. apply first_occurrences_keys_nil.
  - intros x. by rewrite first_occurrences_keys_nil, fmap_app, elem_of_app.
  - intros x. split.
    + intros [d [-> Hd]]%list_elem_of_fmap.
      apply list_elem_of_In, filter_In in Hd as [Hd Hk].
      apply bool_decide_eq_true in Hk.
      split; [|done]. apply list_elem_of_fmap.
      exists d. split; [done|by apply list_elem_of_In].
    + intros [[d [-> Hd]]%list_elem_of_fmap Hk]. apply list_elem_of_fmap.
      exists d. split; [done|].
      apply list_elem_of_In, filter_In. split; [by apply list_elem_of_In|].
      by apply bool_decide_eq_true.
Qed.

(** X3. [union] is associative: [A.union(B, k).union(C, k)] and
    [A.union(B.union(C, k), k)] hold the same documents in the same
    order. *)
Theorem union_associative {K} `{Countable K}
    (A B C : DocumentSet.t) (k : Document.t → K) :
  (DocumentSet.union A B (Some k) ≫= λ U, DocumentSet.union U C (Some k))
  = (DocumentSet.union B C (Some k) ≫= λ V, DocumentSet.union A V (Some k))
  ∧ ∃ R, (DocumentSet.union A B (Some k)
            ≫= λ U, DocumentSet.union U C (Some k)) = Ok R
         ∧ DocumentSet.docs R
           = first_occurrences [] k
               (DocumentSet.docs A ++ DocumentSet.docs B ++ DocumentSet.docs C).
Proof.
  rewrite !union_Some, !exc_bind_Ok, !union_Some. cbn [DocumentSet.docs].
  assert (Hl : first_occurrences [] k
                 (first_occurrences [] k (DocumentSet.docs A ++ DocumentSet.docs B)
                  ++ DocumentSet.docs C)
               = first_occurrences [] k
                   (DocumentSet.docs A ++ DocumentSet.docs B ++ DocumentSet.docs C)).
  { rewrite (app_assoc (DocumentSet.docs A)).
    rewrite !(first_occurrences_app [] k _ (DocumentSet.docs C)).
    by rewrite first_occurrences_idemp, first_occurrences_seen_keys. }
  assert (Hr : first_occurrences [] k
                 (DocumentSet.docs A
                  ++ first_occurrences [] k (DocumentSet.docs B ++ DocumentSet.docs C))
               = first_occurrences [] k
                   (DocumentSet.docs A ++ DocumentSet.docs B ++ DocumentSet.docs C)).
  { rewrite !(first_occurrences_app [] k (DocumentSet.docs A)).
    rewrite first_occurrences_twice; [done|]. by intros x ?%elem_of_nil. }
  rewrite Hl, Hr. split; [done|]. by eexists.
Qed.

(** X4. [union] absorbs what it has seen: uniting [A.union(B, k)] with [A]
    or with [B] again, or removing its duplicates, changes nothing; and
    [A.union(A, k)] is [A.filter_duplicates(k)]. *)
Theorem union_absorbs {K} `{Countable K}
    (A B : DocumentSet.t) (k : Document.t → K) :
  (DocumentSet.union A B (Some k) ≫= λ U, DocumentSet.union U B (Some k))
  = DocumentSet.union A B (Some k)
  ∧ (DocumentSet.union A B (Some k) ≫= λ U, DocumentSet.union U A (Some k))
    = DocumentSet.union A B (Some k)
  ∧ (DocumentSet.union A B (Some k)
       ≫= λ U, DocumentSet.filter_duplicates U (Some k))
    = DocumentSet.union A B (Some k)
  ∧ DocumentSet.union A A (Some k) = DocumentSet.filter_duplicates A (Some k).
Proof.
  rewrite !union_Some, !exc_bind_Ok, !union_Some, !filter_duplicates_Some.
  cbn [DocumentSet.docs].
  assert (Habs : ∀ l l', (∀ x, x ∈ k <$> l' → x ∈ k <$> l) →
            first_occurrences [] k (first_occurrences [] k l ++ l')
            = first_occurrences [] k l).
  { intros l l' Hsub.
    rewrite first_occurrences_app, first_occurrences_idemp.
    rewrite first_occurrences_seen_keys, (first_occurrences_all_seen _ k l').
    - by rewrite app_nil_r.
    - intros x Hx. simpl. auto. }
  split; [|split; [|split]].
  - rewrite Habs; [done|]. intros x Hx. rewrite fmap_app, elem_of_app. auto.
  - rewrite Habs; [done|]. intros x Hx. rewrite fmap_app, elem_of_app. auto.
  - by rewrite first_occurrences_idemp.
  - rewrite first_occurrences_app.
    rewrite (first_occurrences_all_seen ([] ++ _) k (DocumentSet.docs A)).
    + by rewrite app_nil_r.
    + intros x Hx. simpl. auto.
Qed.

Lemma List_filter_filter {X} (p q : X → bool) (l : list X) :
  List.filter q (List.filter p l) = List.filter (λ x, p x && q x) l.
Proof.
  induction l as [|x l IH]; [done|]. simpl.
  destruct (p x); simpl; [|done]. destruct (q x); by rewrite IH.
Qed.

Lemma List_filter_all {X} (p : X → bool) (l : list X) :
  (∀ x, x ∈ l → p x = true) → List.filter p l = l.
Proof.
  induction l as [|x l IH]; intros Hall; [done|]. simpl.
  rewrite Hall by left. f_equal. apply IH. intros y Hy. apply Hall. by right.
Qed.

Lemma List_filter_none {X} (p : X → bool) (l : list X) :
  (∀ x, x ∈ l → p x = false) → List.filter p l = [].
Proof.
  induction l as [|x l IH]; intros Hall; [done|]. simpl.
  rewrite Hall by left. apply IH. intros y Hy. apply Hall. by right.
Qed.

(** X5. What [B] already holds need not be offered to it: uniting [B] with
    [A.difference(B, k)] gives the same as uniting [B] with [A]. *)
Theorem union_of_difference {K} `{Countable K}
    (A B : DocumentSet.t) (k : Document.t → K) :
  (DocumentSet.difference A B (Some k)
     ≫= λ D, DocumentSet.union B D (Some k))
  = DocumentSet.union B A (Some k).
Proof.
  rewrite difference_Some, exc_bind_Ok, !union_Some. cbn [DocumentSet.docs].
  do 2 f_equal. rewrite !first_occurrences_app. f_equal.
  rewrite (first_occurrences_filter_key _ k _ _
             (λ x, bool_decide (x ∉ k <$> DocumentSet.docs B))) by done.
  apply List_filter_all. intros d Hd.
  apply bool_decide_eq_true. intros Hin.
  assert (k d ∈ k <$> first_occurrences ([] ++ (k <$> DocumentSet.docs B)) k
                         (DocumentSet.docs A)) as Hk
    by (apply list_elem_of_fmap; eauto).
  by apply first_occurrences_fresh in Hk.
Qed.

(** X6. Taking two differences in a row is taking the difference with the
    union: [A.difference(B, k).difference(C, k)] is
    [A.difference(B.union(C, k), k)]. *)
Theorem difference_of_difference {K} `{Countable K}
    (A B C : DocumentSet.t) (k : Document.t → K) :
  (DocumentSet.difference A B (Some k)
     ≫= λ D, DocumentSet.difference D C (Some k))
  = (DocumentSet.union B C (Some k)
       ≫= λ U, DocumentSet.difference A U (Some k)).
Proof.
  rewrite difference_Some, union_Some, !exc_bind_Ok, !difference_Some.
  cbn [DocumentSet.docs]. do 2 f_equal.
  rewrite List_filter_filter.
  rewrite (filter_not_in_ext k _ (DocumentSet.docs B ++ DocumentSet.docs C))
    by (intros x; apply first_occurrences_keys_nil).
  apply List.filter_ext. intros d.
  rewrite fmap_app. apply eq_true_iff_eq.
  rewrite andb_true_iff, !bool_decide_eq_true, elem_of_app. tauto.
Qed.

(** X7. Empty and equal operands: uniting with an empty set, on either
    side, is [filter_duplicates]; the difference with an empty set is the
    set itself, duplicates included; the difference of an empty set, and of
    a set with itself, is empty. *)
Theorem empty_and_equal_operands {K} `{Countable K}
    (A : DocumentSet.t) (k : Document.t → K) :
  DocumentSet.union A (DocumentSet.mk []) (Some k)
  = DocumentSet.filter_duplicates A (Some k)
  ∧ DocumentSet.union (DocumentSet.mk []) A (Some k)
    = DocumentSet.filter_duplicates A (Some k)
  ∧ DocumentSet.difference A (DocumentSet.mk []) (Some k) = Ok A
  ∧ DocumentSet.difference (DocumentSet.mk []) A (Some k)
    = Ok (DocumentSet.mk [])
  ∧ DocumentSet.difference A A (Some k) = Ok (DocumentSet.mk [])
  ∧ DocumentSet.filter_duplicates (DocumentSet.mk []) (Some k)
    = Ok (DocumentSet.mk []).
Proof.
  rewrite !union_Some, !difference_Some, !filter_duplicates_Some.
  cbn [DocumentSet.docs]. rewrite app_nil_r.
  split; [done|]. split; [done|]. split; [|split; [done|split; [|done]]].
  - rewrite List_filter_all; [by destruct A|].
    intros d _. apply bool_decide_eq_true. by intros ?%elem_of_nil.
  - rewrite List_filter_none; [done|].
    intros d Hd. apply bool_decide_eq_false. intros Hnin. apply Hnin.
    apply list_elem_of_fmap. eauto.
Qed.

(** X8. [filter_duplicates] may be applied before or after [difference],
    and before or after a [filter] whose predicate is a function of the
    key. For any other predicate, filtering after [filter_duplicates] only
    ever loses documents against filtering before it. *)
Theorem filter_duplicates_commutes {K} `{Countable K}
    (A B : DocumentSet.t) (k : Document.t → K) (p : Document.t → bool) :
  (DocumentSet.difference A B (Some k)
     ≫= λ D, DocumentSet.filter_duplicates D (Some k))
  = (DocumentSet.filter_duplicates A (Some k)
       ≫= λ R, DocumentSet.difference R B (Some k))
  ∧ (∃ R1 R2,
        DocumentSet.filter_duplicates (DocumentSet.filter A p) (Some k) = Ok R1
        ∧ DocumentSet.filter_duplicates A (Some k) = Ok R2
        ∧ DocumentSet.docs (DocumentSet.filter R2 p)
          `sublist_of` DocumentSet.docs R1
        ∧ ((∃ g : K → bool, ∀ d, p d = g (k d)) →
           DocumentSet.filter R2 p = R1)).
Proof.
  split.
  - rewrite difference_Some, filter_duplicates_Some, !exc_bind_Ok.
    rewrite difference_Some, filter_duplicates_Some. cbn [DocumentSet.docs].
    do 2 f_equal.
    apply (first_occurrences_filter_key _ k _ _
             (λ x, bool_decide (x ∉ k <$> DocumentSet.docs B))).
    done.
  - eexists _, _. split; [apply filter_duplicates_Some|].
    split; [apply filter_duplicates_Some|].
    unfold DocumentSet.filter. cbn [DocumentSet.docs]. split.
    + apply filter_first_occurrences_sublist.
    + intros [g Hg]. f_equal. symmetry.
      by apply (first_occurrences_filter_key _ k _ _ g).
Qed.

Lemma filter_duplicates_commutes_witness :
  ∃ R1 R2,
    DocumentSet.filter_duplicates
      (DocumentSet.filter
         (DocumentSet.mk [mkdoc (doi_id "10.1/x") "docA";
                          mkdoc (doi_id "10.1/x") "docC";
                          mkdoc (title_id "T") "docB"])
         (λ d, truthy (id_value d)))
      (Some id_value) = Ok R1
    ∧ DocumentSet.filter_duplicates
        (DocumentSet.mk [mkdoc (doi_id "10.1/x") "docA";
                         mkdoc (doi_id "10.1/x") "docC";
                         mkdoc (title_id "T") "docB"])
        (Some id_value) = Ok R2
    ∧ DocumentSet.filter R2 (λ d, truthy (id_value d)) = R1.
Proof.
  destruct (filter_duplicates_commutes
              (DocumentSet.mk [mkdoc (doi_id "10.1/x") "docA";
                               mkdoc (doi_id "10.1/x") "docC";
                               mkdoc (title_id "T") "docB"])
              (DocumentSet.mk []) id_value (λ d, truthy (id_value d)))
    as [_ [R1 [R2 [H1 [H2 [_ Heq]]]]]].
  exists R1, R2. split; [exact H1|]. split; [exact H2|].
  apply Heq. exists truthy. intros d. reflexivity.
Defined.

(** X9. Filters compose: [C.filter(p).filter(q)] keeps the documents that
    satisfy both, whichever comes first, and [filter] may be applied before
    or after [difference]. *)
Theorem filter_composes {K} `{Countable K}
    (A B : DocumentSet.t) (k : Document.t → K) (p q : Document.t → bool) :
  DocumentSet.filter (DocumentSet.filter A p) q
  = DocumentSet.filter A (λ d, p d && q d)
  ∧ DocumentSet.filter (DocumentSet.filter A p) q
    = DocumentSet.filter (DocumentSet.filter A q) p
  ∧ DocumentSet.difference (DocumentSet.filter A p) B (Some k)
    = (DocumentSet.difference A B (Some k)
         ≫= λ D, Ok (DocumentSet.filter D p)).
Proof.
  unfold DocumentSet.filter. cbn [DocumentSet.docs].
  split; [|split].
  - by rewrite List_filter_filter.
  - rewrite !List_filter_filter. f_equal.
    apply List.filter_ext. intros d. apply andb_comm.
  - rewrite !difference_Some, exc_bind_Ok. cbn [DocumentSet.docs].
    do 2 f_equal. rewrite !List_filter_filter.
    apply List.filter_ext. intros d. apply andb_comm.
Qed.

(** ** The parsers of [DocumentID] on any object *)

Lemma parse_scopus_cases (a : DocumentID.scopus_abstract) (self : DocumentID.t) :
  DocumentID.parse_scopus a self
  = (Ok tt,
     if truthy (DocumentID.doi a) then DocumentID.mk (DocumentID.doi a) true
     else if truthy (DocumentID.eid a)
          then DocumentID.mk (DocumentID.eid a) (DocumentID.is_doi self)
          else DocumentID.mk (DocumentID.title a) (DocumentID.is_doi self)).
Proof.
  unfold DocumentID.parse_scopus.
  destruct (truthy (DocumentID.doi a)); [done|].
  by destruct (truthy (DocumentID.eid a)).
Qed.

Lemma parse_dblp_cases (dblp_result : gmap string (gmap string string))
    (self : DocumentID.t) :
  DocumentID.parse_dblp dblp_result self
  = match dblp_result !! "info" with
    | None => (Raise (KeyError "info"), self)
    | Some info =>
        match info !! "doi", info !! "title" with
        | Some v, _ => (Ok tt, DocumentID.mk (Some v) true)
        | None, Some t => (Ok tt, DocumentID.mk (Some t) (DocumentID.is_doi self))
        | None, None => (Raise (KeyError "title"), self)
        end
    end.
Proof.
  unfold DocumentID.parse_dblp. run_action.
  destruct (dblp_result !! "info") as [info|]; [|done]. run_action.
  destruct (info !! "doi") as [v|]; [done|]. run_action.
  by destruct (info !! "title").
Qed.

Lemma parse_bibtex_cases (bibtex_entry : gmap string string)
    (self : DocumentID.t) :
  DocumentID.parse_bibtex bibtex_entry self
  = match bibtex_entry !! "doi", bibtex_entry !! "title" with
    | Some v, _ =>
        (Ok tt,
         DocumentID.mk (Some (replace (replace v url_doi "") url_ieee "")) true)
    | None, Some t => (Ok tt, DocumentID.mk (Some t) (DocumentID.is_doi self))
    | None, None => (Raise (KeyError "title"), self)
    end.
Proof.
  unfold DocumentID.parse_bibtex. run_action.
  destruct (bibtex_entry !! "doi") as [v|]; [done|]. run_action.
  by destruct (bibtex_entry !! "title").
Qed.

(** X10. A BibTeX entry without a DOI field resolves to its title, and the
    flag [is_doi] is left as it was; an entry with neither field makes
    [parse_bibtex] raise [KeyError('title')] and leaves the object as it
    was. *)
Theorem parse_bibtex_without_doi
    (bibtex_entry : gmap string string) (self : DocumentID.t) :
  bibtex_entry !! "doi" = None →
  (∀ t, bibtex_entry !! "title" = Some t →
        DocumentID.parse_bibtex bibtex_entry self
        = (Ok tt, DocumentID.mk (Some t) (DocumentID.is_doi self)))
  ∧ (bibtex_entry !! "title" = None →
     DocumentID.parse_bibtex bibtex_entry self = (Raise (KeyError "title"), self)).
Proof.
  intros Hdoi. rewrite parse_bibtex_cases, Hdoi.
  split; [intros t ->|intros ->]; done.
Qed.

Lemma parse_bibtex_without_doi_witness :
  DocumentID.parse_bibtex {[ "title" := "A Title" ]} (DocumentID.__init__ None)
  = (Ok tt, DocumentID.mk (Some "A Title") false)
  ∧ DocumentID.parse_bibtex {[ "year" := "2020" ]} (DocumentID.__init__ None)
    = (Raise (KeyError "title"), DocumentID.__init__ None).
Proof.
  split.
  - apply (parse_bibtex_without_doi {[ "title" := "A Title" ]}
             (DocumentID.__init__ None)).
    + vm_compute. reflexivity.
    + vm_compute. reflexivity.
  - apply (parse_bibtex_without_doi {[ "year" := "2020" ]}
             (DocumentID.__init__ None)).
    + vm_compute. reflexivity.
    + vm_compute. reflexivity.
Defined.

(** X11. No parser ever clears [is_doi]: on an object whose flag is set,
    every parse that returns leaves it set, also when the identifier it
    stores is an eid or a title. *)
Theorem parsers_never_clear_is_doi
    (a : DocumentID.scopus_abstract)
    (dblp_result : gmap string (gmap string string))
    (bibtex_entry : gmap string string) (self : DocumentID.t) :
  DocumentID.is_doi self = true →
  DocumentID.is_doi (snd (DocumentID.parse_scopus a self)) = true
  ∧ DocumentID.is_doi (snd (DocumentID.parse_dblp dblp_result self)) = true
  ∧ DocumentID.is_doi (snd (DocumentID.parse_bibtex bibtex_entry self)) = true
  ∧ DocumentID.parse_scopus
      {| DocumentID.doi := None; DocumentID.eid := None;
         DocumentID.title := DocumentID.title a |} self
    = (Ok tt, DocumentID.mk (DocumentID.title a) true).
Proof.
  intros Hself.
  rewrite !parse_scopus_cases, parse_dblp_cases, parse_bibtex_cases.
  simpl. rewrite Hself. repeat split.
  - destruct (truthy (DocumentID.doi a)); [done|].
    by destruct (truthy (DocumentID.eid a)).
  - destruct (dblp_result !! "info") as [info|]; [|done].
    destruct (info !! "doi"); [done|]. by destruct (info !! "title").
  - destruct (bibtex_entry !! "doi"); [done|].
    by destruct (bibtex_entry !! "title").
Qed.

Lemma parsers_never_clear_is_doi_witness :
  DocumentID.is_doi
    (snd (DocumentID.parse_dblp {[ "info" := {[ "title" := "A Title" ]} ]}
            (DocumentID.mk (Some "10.1/x") true)))
  = true.
Proof.
  apply (parsers_never_clear_is_doi
           {| DocumentID.doi := None; DocumentID.eid := None;
              DocumentID.title := None |}
           {[ "info" := {[ "title" := "A Title" ]} ]} ∅
           (DocumentID.mk (Some "10.1/x") true)).
  reflexivity.
Defined.

(** X12. A parse that raises has changed nothing: [parse_scopus] never
    raises; [parse_dblp] and [parse_bibtex] raise a [KeyError] only, for
    ["info"] or ["title"], and then the object is as it was before the
    call. *)
Theorem failed_parse_changes_nothing
    (a : DocumentID.scopus_abstract)
    (dblp_result : gmap string (gmap string string))
    (bibtex_entry : gmap string string) (self : DocumentID.t) :
  fst (DocumentID.parse_scopus a self) = Ok tt
  ∧ (∀ e self', DocumentID.parse_dblp dblp_result self = (Raise e, self') →
                self' = self ∧ (e = KeyError "info" ∨ e = KeyError "title"))
  ∧ (∀ e self', DocumentID.parse_bibtex bibtex_entry self = (Raise e, self') →
                self' = self ∧ e = KeyError "title"
                ∧ bibtex_entry !! "doi" = None
                ∧ bibtex_entry !! "title" = None).
Proof.
  rewrite parse_scopus_cases, parse_dblp_cases, parse_bibtex_cases.
  split; [done|]. split.
  - intros e self'.
    destruct (dblp_result !! "info") as [info|];
      [|intros [= <- <-]; by auto].
    destruct (info !! "doi"); [done|].
    destruct (info !! "title"); [done|]. intros [= <- <-]. by auto.
  - intros e self'.
    destruct (bibtex_entry !! "doi"); [done|].
    destruct (bibtex_entry !! "title"); [done|]. by intros [= <- <-].
Qed.

Lemma failed_parse_changes_nothing_witness :
  DocumentID.mk (Some "10.1/x") true = DocumentID.mk (Some "10.1/x") true
  ∧ (KeyError "info" = KeyError "info" ∨ KeyError "info" = KeyError "title").
Proof.
  apply (proj1 (proj2 (failed_parse_changes_nothing
                         {| DocumentID.doi := None; DocumentID.eid := None;
                            DocumentID.title := None |}
                         ∅ ∅ (DocumentID.mk (Some "10.1/x") true)))).
  vm_compute. reflexivity.
Defined.

(** X13. On a new [DocumentID], a parse that returns sets [is_doi] exactly
    when the record has a DOI: a non-empty [doi] for Scopus, a ["doi"]
    under ["info"] for DBLP, a ["doi"] field for BibTeX. *)
Theorem is_doi_tells_doi_present
    (a : DocumentID.scopus_abstract)
    (dblp_result : gmap string (gmap string string))
    (bibtex_entry : gmap string string) (doc_id : option string) :
  DocumentID.is_doi
    (snd (DocumentID.parse_scopus a (DocumentID.__init__ doc_id)))
  = truthy (DocumentID.doi a)
  ∧ (∀ self', DocumentID.parse_dblp dblp_result (DocumentID.__init__ doc_id)
              = (Ok tt, self') →
              DocumentID.is_doi self' = true ↔ is_Some (dblp_doi dblp_result))
  ∧ (∀ self', DocumentID.parse_bibtex bibtex_entry (DocumentID.__init__ doc_id)
              = (Ok tt, self') →
              DocumentID.is_doi self' = true ↔ is_Some (bibtex_entry !! "doi")).
Proof.
  rewrite parse_scopus_cases, parse_dblp_cases, parse_bibtex_cases.
  unfold dblp_doi. split; [|split].
  - destruct (truthy (DocumentID.doi a)); [done|].
    by destruct (truthy (DocumentID.eid a)).
  - intros self'.
    destruct (dblp_result !! "info") as [info|]; [|done]. simpl.
    destruct (info !! "doi"); [intros [= <-]; by eauto|].
    destruct (info !! "title"); [|done]. intros [= <-]. simpl.
    split; [done|]. by intros [? ?].
  - intros self'.
    destruct (bibtex_entry !! "doi"); [intros [= <-]; by eauto|].
    destruct (bibtex_entry !! "title"); [|done]. intros [= <-]. simpl.
    split; [done|]. by intros [? ?].
Qed.

Lemma is_doi_tells_doi_present_witness :
  is_Some (dblp_doi {[ "info" := {[ "doi" := "10.1/x" ]} ]}).
Proof.
  destruct (is_doi_tells_doi_present
              {| DocumentID.doi := None; DocumentID.eid := None;
                 DocumentID.title := None |}
              {[ "info" := {[ "doi" := "10.1/x" ]} ]} ∅ None) as [_ [Hd _]].
  apply (Hd (DocumentID.mk (Some "10.1/x") true)).
  - vm_compute. reflexivity.
  - reflexivity.
Defined.

Lemma replace_from_deletes (old : string) (skip : nat) (s : string) :
  list_ascii_of_string (replace_from old "" skip s)
  `sublist_of` list_ascii_of_string s.
Proof.
  revert skip. induction s as [|c s IH]; intros skip; [done|].
  cbn [replace_from list_ascii_of_string].
  destruct skip as [|n].
  - destruct (startswith (String c s) old).
    + change ("" +:+ ?x) with x. by apply sublist_cons.
    + cbn [list_ascii_of_string]. by apply sublist_skip.
  - by apply sublist_cons.
Qed.

(** X14. Resolving a BibTeX DOI only deletes characters: the identifier is
    the DOI value with some characters left out, none added, none moved,
    so it is never longer than the value. *)
Theorem parse_bibtex_only_deletes
    (bibtex_entry : gmap string string) (v : string) (self : DocumentID.t) :
  bibtex_entry !! "doi" = Some v →
  ∃ i, DocumentID.parse_bibtex bibtex_entry self
       = (Ok tt, DocumentID.mk (Some i) true)
       ∧ list_ascii_of_string i `sublist_of` list_ascii_of_string v
       ∧ (String.length i ≤ String.length v)%nat.
Proof.
  intros Hdoi. rewrite parse_bibtex_cases, Hdoi.
  eexists. split; [done|].
  assert (Hsub : list_ascii_of_string (replace (replace v url_doi "") url_ieee "")
                 `sublist_of` list_ascii_of_string v).
  { etrans; apply replace_from_deletes. }
  split; [done|].
  apply sublist_length in Hsub.
  assert (Hlen : ∀ s, length (list_ascii_of_string s) = String.length s).
  { intros s. induction s as [|c s IH]; [done|]. simpl. by rewrite IH. }
  by rewrite !Hlen in Hsub.
Qed.

Lemma parse_bibtex_only_deletes_witness :
  ∃ i, DocumentID.parse_bibtex {[ "doi" := "10.1/http://doi.org/x" ]}
         (DocumentID.__init__ None)
       = (Ok tt, DocumentID.mk (Some i) true)
       ∧ (String.length i ≤ 21)%nat.
Proof.
  destruct (parse_bibtex_only_deletes {[ "doi" := "10.1/http://doi.org/x" ]}
              "10.1/http://doi.org/x" (DocumentID.__init__ None))
    as [i [Hi [_ Hlen]]].
  - vm_compute. reflexivity.
  - exists i. split; [exact Hi|exact Hlen].
Defined.

(** ** More on the constructors *)

Lemma Document_init_outcome (kwargs : dict) :
  Document.__init__ kwargs
  = init_outcome "Document.__init__" Document_of Document.fields
      ["id"; "title"] kwargs.
Proof.
  rewrite Document_init_cases. unfold init_outcome, missing. simpl.
  destruct (dict_get "self" kwargs); [done|].
  destruct (dict_get "id" kwargs); [|done].
  by destruct (dict_get "title" kwargs).
Qed.

Lemma Author_init_outcome (kwargs : dict) :
  Author.__init__ kwargs
  = init_outcome "Author.__init__" Author_of Author.fields ["name"] kwargs.
Proof.
  rewrite Author_init_cases. unfold init_outcome, missing. simpl.
  destruct (dict_get "self" kwargs); [done|].
  by destruct (dict_get "name" kwargs).
Qed.

Lemma Affiliation_init_outcome (kwargs : dict) :
  Affiliation.__init__ kwargs
  = init_outcome "Affiliation.__init__" Affiliation_of Affiliation.fields
      ["name"] kwargs.
Proof.
  rewrite Affiliation_init_cases. unfold init_outcome, missing. simpl.
  destruct (dict_get "self" kwargs); [done|].
  by destruct (dict_get "name" kwargs).
Qed.

Lemma dict_get_Some (key : string) (d : dict) (v : value) :
  NoDup (d.*1) → dict_get key d = Some v ↔ (key, v) ∈ d.
Proof.
  induction d as [|[k' v'] d IH]; intros Hnd.
  - simpl. split; [done|]. by intros ?%elem_of_nil.
  - rewrite fmap_cons in Hnd. apply NoDup_cons in Hnd as [Hk' Hnd].
    simpl. rewrite elem_of_cons.
    destruct (String.eqb_spec k' key) as [->|Hne].
    + split; [intros [= ->]; by left|].
      intros [[= ->]|Hin]; [done|].
      destruct Hk'. apply list_elem_of_fmap. by exists (key, v).
    + rewrite IH by done. split; [by right|].
      intros [[= -> ->]|?]; [done|done].
Qed.

Lemma dict_get_Permutation (key : string) (d d' : dict) :
  NoDup (d.*1) → d ≡ₚ d' → dict_get key d = dict_get key d'.
Proof.
  intros Hnd Hperm.
  assert (Hnd' : NoDup (d'.*1)) by (by rewrite <- Hperm).
  destruct (dict_get key d') as [v'|] eqn:E'.
  - apply dict_get_Some; [done|]. rewrite Hperm. by apply dict_get_Some.
  - apply dict_get_None. rewrite Hperm. by apply dict_get_None.
Qed.

Lemma dict_get_insert_None (key key' : string) (d1 d2 : dict) :
  key ∉ (d1 ++ d2).*1 →
  default VNone (dict_get key' (d1 ++ (key, VNone) :: d2))
  = default VNone (dict_get key' (d1 ++ d2))
  ∧ (key' ≠ key →
     dict_get key' (d1 ++ (key, VNone) :: d2) = dict_get key' (d1 ++ d2)).
Proof.
  induction d1 as [|[k v] d1 IH]; intros Hnin.
  - rewrite !app_nil_l in *. cbn [dict_get].
    destruct (String.eqb_spec key key') as [->|Hne].
    + apply dict_get_None in Hnin. rewrite Hnin. split; [done|congruence].
    + done.
  - rewrite <- !app_comm_cons, fmap_cons, not_elem_of_cons in Hnin.
    destruct Hnin as [Hk Hnin].
    rewrite <- !app_comm_cons. cbn [dict_get].
    destruct (String.eqb k key'); [done|]. by apply IH.
Qed.

Lemma init_outcome_ext {T} method (of_kwargs : dict → T) fields required
    (kwargs kwargs' : dict) :
  dict_get "self" kwargs = dict_get "self" kwargs' →
  (∀ r, r ∈ required → missing kwargs r = missing kwargs' r) →
  unexpected fields kwargs = unexpected fields kwargs' →
  of_kwargs kwargs = of_kwargs kwargs' →
  init_outcome method of_kwargs fields required kwargs
  = init_outcome method of_kwargs fields required kwargs'.
Proof.
  intros Hself Hreq Hunexp Hof. unfold init_outcome.
  rewrite Hself, Hunexp, Hof.
  assert (List.find (missing kwargs) required
          = List.find (missing kwargs') required) as ->; [|done].
  clear -Hreq. induction required as [|r required IH]; [done|]. simpl.
  rewrite (Hreq r) by left. rewrite IH; [done|].
  intros r' Hr'. apply Hreq. by right.
Qed.

Lemma Document_of_ext (kwargs kwargs' : dict) :
  (∀ key, attr key kwargs = attr key kwargs') →
  Document_of kwargs = Document_of kwargs'.
Proof. intros Hattr. unfold Document_of. by rewrite !Hattr. Qed.

Lemma Author_of_ext (kwargs kwargs' : dict) :
  (∀ key, attr key kwargs = attr key kwargs') →
  Author_of kwargs = Author_of kwargs'.
Proof. intros Hattr. unfold Author_of. by rewrite !Hattr. Qed.

Lemma Affiliation_of_ext (kwargs kwargs' : dict) :
  (∀ key, attr key kwargs = attr key kwargs') →
  Affiliation_of kwargs = Affiliation_of kwargs'.
Proof. intros Hattr. unfold Affiliation_of. by rewrite !Hattr. Qed.

Lemma init_outcome_Permutation {T} method (of_kwargs : dict → T) fields
    required (kwargs kwargs' : dict) :
  (∀ kw kw', (∀ key, attr key kw = attr key kw') →
             of_kwargs kw = of_kwargs kw') →
  NoDup (kwargs.*1) → kwargs ≡ₚ kwargs' →
  unexpected fields kwargs = unexpected fields kwargs' →
  init_outcome method of_kwargs fields required kwargs
  = init_outcome method of_kwargs fields required kwargs'.
Proof.
  intros Hof Hnd Hperm Hunexp. apply init_outcome_ext; [|  |done|].
  - by apply dict_get_Permutation.
  - intros r _. unfold missing. by rewrite (dict_get_Permutation r _ _ Hnd Hperm).
  - apply Hof. intros key. unfold attr.
    by rewrite (dict_get_Permutation key _ _ Hnd Hperm).
Qed.

Lemma unexpected_insert fields (kwargs1 kwargs2 : dict) key v :
  key ∈ fields →
  unexpected fields (kwargs1 ++ (key, v) :: kwargs2)
  = unexpected fields (kwargs1 ++ kwargs2).
Proof.
  intros Hkey. unfold unexpected.
  rewrite !fmap_app, fmap_cons, !filter_app, filter_cons_False; [done|].
  simpl. by intros [].
Qed.

Lemma init_outcome_insert_None {T} method (of_kwargs : dict → T) fields
    required (kwargs1 kwargs2 : dict) (key : string) :
  (∀ kw kw', (∀ key, attr key kw = attr key kw') →
             of_kwargs kw = of_kwargs kw') →
  "self" ∉ fields →
  key ∈ fields → key ∉ required → key ∉ (kwargs1 ++ kwargs2).*1 →
  init_outcome method of_kwargs fields required
    (kwargs1 ++ (key, VNone) :: kwargs2)
  = init_outcome method of_kwargs fields required (kwargs1 ++ kwargs2).
Proof.
  intros Hof Hself Hkey Hreq Hnin. apply init_outcome_ext.
  - apply (dict_get_insert_None key "self" _ _ Hnin). by intros <-.
  - intros r Hr. unfold missing.
    rewrite (proj2 (dict_get_insert_None key r _ _ Hnin)); [done|].
    by intros ->.
  - by apply unexpected_insert.
  - apply Hof. intros key'. unfold attr.
    apply (dict_get_insert_None key key' _ _ Hnin).
Qed.

Lemma self_not_a_field :
  ("self" ∉ Document.fields) ∧ ("self" ∉ Author.fields)
  ∧ ("self" ∉ Affiliation.fields).
Proof.
  split; [|split]; intros Hin; apply list_elem_of_In in Hin; simpl in Hin;
    intuition discriminate.
Qed.

(** X15. The order of the keyword arguments does not matter: for
    [Document], [Author] and [Affiliation], two calls with the same
    arguments in another order, the unrecognised names among them in the
    same order, build the same object or raise the same error. *)
Theorem init_ignores_keyword_order :
  keyword_order_irrelevant Document.__init__ Document.fields
  ∧ keyword_order_irrelevant Author.__init__ Author.fields
  ∧ keyword_order_irrelevant Affiliation.__init__ Affiliation.fields.
Proof.
  split; [|split]; intros kwargs kwargs' Hnd Hperm Hunexp.
  - rewrite !Document_init_outcome.
    by apply init_outcome_Permutation; [apply Document_of_ext|..].
  - rewrite !Author_init_outcome.
    by apply init_outcome_Permutation; [apply Author_of_ext|..].
  - rewrite !Affiliation_init_outcome.
    by apply init_outcome_Permutation; [apply Affiliation_of_ext|..].
Qed.

Lemma init_ignores_keyword_order_witness :
  Document.__init__
    [("title", VStr "T"); ("year", VInt 2020);
     ("id", VDocumentID (DocumentID.__init__ None))]
  = Document.__init__
      [("id", VDocumentID (DocumentID.__init__ None)); ("title", VStr "T");
       ("year", VInt 2020)].
Proof.
  apply (proj1 init_ignores_keyword_order).
  - vm_compute. repeat constructor; intros Hin; apply list_elem_of_In in Hin;
      simpl in Hin; intuition discriminate.
  - change ([("title", VStr "T"); ("year", VInt 2020)]
            ++ [("id", VDocumentID (DocumentID.__init__ None))]
            ≡ₚ [("id", VDocumentID (DocumentID.__init__ None))]
               ++ [("title", VStr "T"); ("year", VInt 2020)]).
    apply Permutation_app_comm.
  - vm_compute. reflexivity.
Defined.

(** X16. Passing [None] for an attribute that has a default is the same as
    not passing it: for [Document], [Author] and [Affiliation] the call
    with [key=None] added anywhere builds the same object, or raises the
    same error, as the call without it. *)
Theorem init_None_is_omission :
  None_is_omission Document.__init__ Document.fields ["id"; "title"]
  ∧ None_is_omission Author.__init__ Author.fields ["name"]
  ∧ None_is_omission Affiliation.__init__ Affiliation.fields ["name"].
Proof.
  split; [|split]; intros kwargs1 kwargs2 key Hkey Hreq Hnin.
  - rewrite !Document_init_outcome.
    by apply init_outcome_insert_None;
      [apply Document_of_ext|apply self_not_a_field|..].
  - rewrite !Author_init_outcome.
    by apply init_outcome_insert_None;
      [apply Author_of_ext|apply self_not_a_field|..].
  - rewrite !Affiliation_init_outcome.
    by apply init_outcome_insert_None;
      [apply Affiliation_of_ext|apply self_not_a_field|..].
Qed.

Lemma init_None_is_omission_witness :
  Author.__init__ [("name", VStr "N"); ("orcid", VNone)]
  = Author.__init__ [("name", VStr "N")].
Proof.
  apply (proj1 (proj2 init_None_is_omission) [("name", VStr "N")] [] "orcid").
  - left.
  - intros Hin. apply list_elem_of_In in Hin. simpl in Hin.
    intuition discriminate.
  - intros Hin. apply list_elem_of_In in Hin. simpl in Hin.
    intuition discriminate.
Defined.

(** X17. In a call that passes no keyword named [self], a missing required
    name is reported before any unrecognised name: [Document] without
    [id] raises [KeyError('id')], with [id] but without [title] it raises
    [KeyError('title')], [Author] and [Affiliation] without [name] raise
    [KeyError('name')], whatever other names, known or not, are passed. A
    keyword named [self] is refused first of all, with a [TypeError] of
    the call, by the three constructors. *)
Theorem init_reports_missing_first (kwargs : dict) :
  (dict_get "self" kwargs = None →
   (dict_get "id" kwargs = None →
    Document.__init__ kwargs = Raise (KeyError "id"))
   ∧ (is_Some (dict_get "id" kwargs) → dict_get "title" kwargs = None →
      Document.__init__ kwargs = Raise (KeyError "title"))
   ∧ (dict_get "name" kwargs = None →
      Author.__init__ kwargs = Raise (KeyError "name")
      ∧ Affiliation.__init__ kwargs = Raise (KeyError "name")))
  ∧ (is_Some (dict_get "self" kwargs) →
     (∃ msg, Document.__init__ kwargs = Raise (TypeError msg))
     ∧ (∃ msg, Author.__init__ kwargs = Raise (TypeError msg))
     ∧ (∃ msg, Affiliation.__init__ kwargs = Raise (TypeError msg))).
Proof.
  rewrite Document_init_cases, Author_init_cases, Affiliation_init_cases.
  split.
  - intros ->. split; [|split].
    + by intros ->.
    + by intros [v ->] ->.
    + by intros ->.
  - intros [v ->]. unfold multiple_values_for_self.
    split; [|split]; eexists; reflexivity.
Qed.

Lemma init_reports_missing_first_witness :
  Document.__init__ [("bogus", VInt 1); ("title", VStr "T")]
  = Raise (KeyError "id")
  ∧ Document.__init__ [("bogus", VInt 1); ("id", VNone)]
    = Raise (KeyError "title")
  ∧ Author.__init__ [("bogus", VInt 1)] = Raise (KeyError "name")
  ∧ (∃ msg, Document.__init__ [("bogus", VInt 1); ("self", VInt 1)]
            = Raise (TypeError msg)).
Proof.
  split; [|split; [|split]].
  - apply (init_reports_missing_first [("bogus", VInt 1); ("title", VStr "T")]).
    + reflexivity.
    + reflexivity.
  - apply (init_reports_missing_first [("bogus", VInt 1); ("id", VNone)]).
    + reflexivity.
    + eexists. reflexivity.
    + reflexivity.
  - apply (init_reports_missing_first [("bogus", VInt 1)]).
    + reflexivity.
    + reflexivity.
  - apply (init_reports_missing_first [("bogus", VInt 1); ("self", VInt 1)]).
    eexists. reflexivity.
Defined.

(** ** Subscription and iteration *)

Example slice_every_second :
  list_getitem [0; 1; 2; 3; 4]%nat (Slice None None (Some 2%Z))
  = inr (inr [0; 2; 4]%nat).
Proof. reflexivity. Qed.

Example slice_backward_by_two :
  list_getitem [0; 1; 2; 3; 4]%nat (Slice (Some 4%Z) (Some 0%Z) (Some (-2)%Z))
  = inr (inr [4; 2]%nat).
Proof. reflexivity. Qed.

Example slice_last_two :
  list_getitem [0; 1; 2; 3; 4]%nat (Slice (Some (-2)%Z) None None)
  = inr (inr [3; 4]%nat).
Proof. reflexivity. Qed.

Example slice_past_the_end :
  list_getitem [0; 1; 2; 3; 4]%nat (Slice (Some 10%Z) (Some 20%Z) None)
  = inr (inr []).
Proof. reflexivity. Qed.

Example slice_clipped_backward :
  list_getitem [0; 1; 2; 3; 4]%nat (Slice (Some (-1)%Z) (Some (-9)%Z) (Some (-1)%Z))
  = inr (inr [4; 3; 2; 1; 0]%nat).
Proof. reflexivity. Qed.

Lemma omap_seq_length {X} (f : nat → option X) (m : nat) :
  (∀ j, (j < m)%nat → is_Some (f j)) → length (omap f (seq 0 m)) = m.
Proof.
  induction m as [|m IH]; intros Hf; [done|].
  rewrite seq_S, omap_app, length_app. cbn [omap list_omap Nat.add].
  destruct (Hf m) as [y Hy]; [lia|]. rewrite Hy. simpl.
  rewrite IH; [lia|]. intros j Hj. apply Hf. lia.
Qed.

Lemma omap_seq_lookup {X} (f : nat → option X) (m i : nat) :
  (∀ j, (j < m)%nat → is_Some (f j)) →
  omap f (seq 0 m) !! i = if decide (i < m)%nat then f i else None.
Proof.
  induction m as [|m IH]; intros Hf.
  - by destruct (decide (i < 0)%nat); [lia|].
  - assert (Hm : ∀ j, (j < m)%nat → is_Some (f j))
      by (intros j Hj; apply Hf; lia).
    rewrite seq_S, omap_app. cbn [omap list_omap Nat.add].
    destruct (Hf m) as [x Hx]; [lia|]. rewrite Hx.
    destruct (decide (i < m)%nat) as [Hi|Hi].
    + rewrite lookup_app_l by (rewrite omap_seq_length; [lia|done]).
      rewrite IH by done. by rewrite decide_True by lia.
    + rewrite lookup_app_r by (rewrite omap_seq_length; [lia|done]).
      rewrite omap_seq_length by done.
      destruct (decide (i = m)) as [->|Hne].
      * rewrite Nat.sub_diag. simpl. by rewrite decide_True by lia.
      * rewrite decide_False by lia.
        destruct (i - m)%nat as [|n] eqn:E; [lia|]. done.
Qed.

(** X18. Subscription by an integer: [C[i]] for [0 <= i < len(C)] is the
    document at position [i]; a negative [i] down to [-len(C)] counts from
    the end, [C[i]] being [C[i + len(C)]]; any other integer raises
    [IndexError], so every integer does on an empty set. The message is
    "list index out of range" for an integer of the machine's index range
    (on a 64-bit build, [-2**63 <= i < 2**63]), and "cannot fit 'int' into
    an index-sized integer" for one outside it, on a set no longer than
    the largest index. *)
Theorem getitem_integer (C : DocumentSet.t) (i : Z) :
  let n := Z.of_nat (DocumentSet.__len__ C) in
  ((0 ≤ i < n)%Z →
   ∃ d, DocumentSet.docs C !! Z.to_nat i = Some d
        ∧ DocumentSet.__getitem__ C (Index i) = inr (inl d))
  ∧ ((- n ≤ i < 0)%Z →
     DocumentSet.__getitem__ C (Index i)
     = DocumentSet.__getitem__ C (Index (i + n))
     ∧ ∃ d, DocumentSet.__getitem__ C (Index i) = inr (inl d))
  ∧ ((i < - n ∨ n ≤ i)%Z →
     (∃ msg, DocumentSet.__getitem__ C (Index i) = inl (IndexError msg))
     ∧ ((- 2 ^ 63 ≤ i < 2 ^ 63)%Z →
        DocumentSet.__getitem__ C (Index i)
        = inl (IndexError "list index out of range")))
  ∧ ((i < - 2 ^ 63 ∨ 2 ^ 63 ≤ i)%Z → (n ≤ PY_SSIZE_T_MAX)%Z →
     DocumentSet.__getitem__ C (Index i)
     = inl (IndexError "cannot fit 'int' into an index-sized integer")).
Proof.
  intros n. unfold n, DocumentSet.__getitem__, DocumentSet.__len__, list_getitem.
  assert (Hin : ∀ j, (0 ≤ j < Z.of_nat (length (DocumentSet.docs C)))%Z →
            ∃ d, DocumentSet.docs C !! Z.to_nat j = Some d).
  { intros j Hj. apply lookup_lt_is_Some. lia. }
  assert (Hout : (i < - Z.of_nat (length (DocumentSet.docs C))
                  ∨ Z.of_nat (length (DocumentSet.docs C)) ≤ i)%Z →
            let j := if (i <? 0)%Z
                     then (i + Z.of_nat (length (DocumentSet.docs C)))%Z
                     else i in
            (j <? 0)%Z || (Z.of_nat (length (DocumentSet.docs C)) <=? j)%Z
            = true).
  { intros [Hi|Hi].
    - rewrite (proj2 (Z.ltb_lt i 0)) by lia. cbv zeta.
      by rewrite (proj2 (Z.ltb_lt (i + _) 0)) by lia.
    - rewrite (proj2 (Z.ltb_ge i 0)) by lia. cbv zeta.
      rewrite (proj2 (Z.ltb_ge i 0)) by lia.
      by rewrite (proj2 (Z.leb_le _ i)) by lia. }
  assert (Hfits : fits_index i = true ↔ (- 2 ^ 63 ≤ i < 2 ^ 63)%Z).
  { unfold fits_index, PY_SSIZE_T_MAX.
    rewrite andb_true_iff, Z.leb_le, Z.leb_le. lia. }
  split; [|split; [|split]].
  - intros Hi. destruct (Hin i Hi) as [d Hd]. exists d. split; [done|].
    rewrite (proj2 (Z.ltb_ge i 0)) by lia.
    rewrite (proj2 (Z.ltb_ge i 0)) by lia.
    rewrite (proj2 (Z.leb_gt _ i)) by lia. simpl. by rewrite Hd.
  - intros Hi.
    destruct (Hin (i + Z.of_nat (length (DocumentSet.docs C)))%Z) as [d Hd];
      [lia|].
    rewrite (proj2 (Z.ltb_lt i 0)) by lia.
    rewrite !(proj2 (Z.ltb_ge (i + _) 0)) by lia.
    rewrite (proj2 (Z.leb_gt _ (i + _))) by lia. simpl. rewrite Hd. eauto.
  - intros Hi. cbv zeta in Hout. rewrite (Hout Hi). split.
    + destruct (fits_index i); by eexists.
    + intros Hi'. by rewrite (proj2 Hfits Hi').
  - intros Hi Hn. unfold PY_SSIZE_T_MAX in Hn. cbv zeta in Hout.
    rewrite Hout by lia.
    destruct (fits_index i); [|done].
    pose proof (proj1 Hfits eq_refl). lia.
Qed.

Lemma getitem_integer_witness :
  DocumentSet.__getitem__
    (DocumentSet.mk [mkdoc VNone "docA"; mkdoc VNone "docB"]) (Index (-1))
  = DocumentSet.__getitem__
      (DocumentSet.mk [mkdoc VNone "docA"; mkdoc VNone "docB"]) (Index 1)
  ∧ DocumentSet.__getitem__
      (DocumentSet.mk [mkdoc VNone "docA"; mkdoc VNone "docB"]) (Index 2)
    = inl (IndexError "list index out of range")
  ∧ DocumentSet.__getitem__
      (DocumentSet.mk [mkdoc VNone "docA"; mkdoc VNone "docB"])
      (Index (2 ^ 63))
    = inl (IndexError "cannot fit 'int' into an index-sized integer").
Proof.
  split; [|split].
  - apply (getitem_integer
             (DocumentSet.mk [mkdoc VNone "docA"; mkdoc VNone "docB"]) (-1)).
    vm_compute. split; [intros Heq; discriminate Heq|reflexivity].
  - apply (getitem_integer
             (DocumentSet.mk [mkdoc VNone "docA"; mkdoc VNone "docB"]) 2).
    + right. vm_compute. intros Heq. discriminate Heq.
    + vm_compute. split; [intros Heq; discriminate Heq|reflexivity].
  - apply (getitem_integer
             (DocumentSet.mk [mkdoc VNone "docA"; mkdoc VNone "docB"])
             (2 ^ 63)).
    + right. vm_compute. intros Heq. discriminate Heq.
    + vm_compute. intros Heq. discriminate Heq.
Defined.

Ltac decide_tests :=
  repeat (match goal with
          | |- context [(?a <? ?b)%Z] => destruct (Z.ltb_spec a b); try lia
          | |- context [(?a =? ?b)%Z] => destruct (Z.eqb_spec a b); try lia
          end; cbv beta iota zeta).

Lemma slice_items_elem_of {X} (l : list X) (g : nat → nat) (m : nat) (x : X) :
  x ∈ omap (λ j, l !! g j) (seq 0 m) → x ∈ l.
Proof.
  intros [j [_ Hj]]%list_elem_of_omap. by apply list_elem_of_lookup_2 in Hj.
Qed.

Lemma slice_forward {X} (l : list X) (a : Z) (m : nat) :
  (0 ≤ a)%Z → (Z.to_nat a + m ≤ length l)%nat →
  omap (λ j, l !! Z.to_nat (a + Z.of_nat j * 1)) (seq 0 m)
  = take m (drop (Z.to_nat a) l).
Proof.
  intros Ha Hlen. apply list_eq. intros i.
  rewrite omap_seq_lookup by (intros j Hj; apply lookup_lt_is_Some; lia).
  destruct (decide (i < m)%nat) as [Hi|Hi].
  - rewrite lookup_take_lt, lookup_drop by lia. f_equal. lia.
  - by rewrite lookup_take_ge by lia.
Qed.

Lemma slice_backward {X} (l : list X) :
  omap (λ j, l !! Z.to_nat (Z.of_nat (length l) - 1 + Z.of_nat j * (-1)))
       (seq 0 (length l))
  = reverse l.
Proof.
  apply list_eq. intros i.
  rewrite omap_seq_lookup by (intros j Hj; apply lookup_lt_is_Some; lia).
  destruct (decide (i < length l)%nat) as [Hi|Hi].
  - rewrite reverse_lookup by done. f_equal. lia.
  - symmetry. apply lookup_ge_None. rewrite length_reverse. lia.
Qed.

(** X19. Subscription by a slice never raises [IndexError]: a step of zero
    raises [ValueError], any other slice returns documents of [C] only,
    its bounds being clipped to the set. [C[:]] is all of [C] in order,
    [C[a:b]] for [0 <= a <= b <= len(C)] is the [b - a] documents from
    position [a] on, and [C[::-1]] is [C] reversed. *)
Theorem getitem_slice (C : DocumentSet.t) (start stop step : option Z) :
  (step = Some 0%Z →
   DocumentSet.__getitem__ C (Slice start stop step)
   = inl (ValueError "slice step cannot be zero"))
  ∧ (step ≠ Some 0%Z →
     ∃ l, DocumentSet.__getitem__ C (Slice start stop step) = inr (inr l)
          ∧ l ⊆ DocumentSet.docs C)
  ∧ DocumentSet.__getitem__ C (Slice None None None)
    = inr (inr (DocumentSet.docs C))
  ∧ (∀ a b : Z,
       (0 ≤ a ≤ b)%Z → (b ≤ Z.of_nat (DocumentSet.__len__ C))%Z →
       DocumentSet.__getitem__ C (Slice (Some a) (Some b) None)
       = inr (inr (take (Z.to_nat (b - a))
                        (drop (Z.to_nat a) (DocumentSet.docs C)))))
  ∧ DocumentSet.__getitem__ C (Slice None None (Some (-1)%Z))
    = inr (inr (reverse (DocumentSet.docs C))).
Proof.
  unfold DocumentSet.__getitem__, DocumentSet.__len__, list_getitem.
  set (l := DocumentSet.docs C). set (n := Z.of_nat (length l)).
  split; [|split; [|split; [|split]]].
  - intros ->. reflexivity.
  - intros Hstep. unfold slice_indices.
    destruct (default 1%Z step =? 0)%Z eqn:E.
    + apply Z.eqb_eq in E. destruct step as [s|]; simpl in E; [|lia].
      by subst s.
    + eexists. split; [done|]. intros d. apply slice_items_elem_of.
  - unfold slice_indices, slice_length. simpl (default _ _).
    assert (length l = 0%nat → l = []) as Hnil by (by destruct l).
    decide_tests; do 2 f_equal.
    + rewrite Z.div_1_r.
      replace (Z.to_nat (n - 0 - 1 + 1)) with (length l) by lia.
      rewrite (slice_forward l 0 (length l)) by (simpl; lia).
      by rewrite drop_0, firstn_all.
    + rewrite Hnil by lia. done.
  - intros a b Hab Hb. unfold slice_indices, slice_length. simpl (default _ _).
    fold n in Hb. decide_tests; rewrite !Z.min_l by lia; do 2 f_equal.
    + rewrite Z.div_1_r.
      replace (Z.to_nat (b - a - 1 + 1)) with (Z.to_nat (b - a)) by lia.
      by rewrite (slice_forward l a (Z.to_nat (b - a))) by (unfold n in Hb; lia).
    + by replace (Z.to_nat (b - a)) with 0%nat by lia.
  - unfold slice_indices, slice_length. simpl (default _ _).
    assert (length l = 0%nat → l = []) as Hnil by (by destruct l).
    change (- -1)%Z with 1%Z.
    decide_tests; do 2 f_equal.
    + rewrite Z.div_1_r.
      replace (Z.to_nat (n - 1 - -1 - 1 + 1)) with (length l) by lia.
      apply slice_backward.
    + rewrite Hnil by lia. done.
Qed.

Lemma getitem_slice_witness :
  DocumentSet.__getitem__
    (DocumentSet.mk [mkdoc VNone "docA"; mkdoc VNone "docB"; mkdoc VNone "docC"])
    (Slice (Some 1%Z) (Some 3%Z) None)
  = inr (inr [mkdoc VNone "docB"; mkdoc VNone "docC"])
  ∧ DocumentSet.__getitem__
      (DocumentSet.mk [mkdoc VNone "docA"])
      (Slice None (Some 7%Z) (Some 0%Z))
    = inl (ValueError "slice step cannot be zero").
Proof.
  split.
  - apply (getitem_slice
             (DocumentSet.mk [mkdoc VNone "docA"; mkdoc VNone "docB";
                              mkdoc VNone "docC"]) None None None).
    + vm_compute. split; intros Heq; discriminate Heq.
    + vm_compute. intros Heq. discriminate Heq.
  - apply (getitem_slice (DocumentSet.mk [mkdoc VNone "docA"])
             None (Some 7%Z) (Some 0%Z)).
    reflexivity.
Defined.

Lemma list_drain_from {X} (l : list X) (i fuel : nat) :
  (i ≤ length l)%nat →
  list_drain fuel {| it_seq := Some l; it_index := i |}
  = if decide (fuel ≤ length l - i)%nat
    then (take fuel (drop i l), {| it_seq := Some l; it_index := i + fuel |})
    else (drop i l, {| it_seq := None; it_index := length l |}).
Proof.
  revert i. induction fuel as [|fuel IH]; intros i Hi.
  - rewrite decide_True by lia. simpl. by rewrite Nat.add_0_r.
  - cbn [list_drain]. unfold list_next. cbn [it_seq it_index].
    destruct (l !! i) as [x|] eqn:Hx.
    + apply lookup_lt_Some in Hx as Hlt. rewrite IH by lia.
      rewrite (drop_S l x i) by done.
      destruct (decide (S fuel ≤ length l - i)%nat).
      * rewrite decide_True by lia. simpl. do 3 f_equal. lia.
      * by rewrite decide_False by lia.
    + apply lookup_ge_None in Hx. rewrite decide_False by lia.
      rewrite drop_ge by lia. do 2 f_equal. lia.
Qed.

(** X20. Iterating a [DocumentSet] yields its documents in order, the one
    at position [i] being [C[i]], and then stops: after [n <= len(C)]
    calls of [next] the first [n] documents have come; one more call than
    [len(C)] ends the iteration, and an iterator that has ended stays
    ended. *)
Theorem iter_yields_documents_in_order (C : DocumentSet.t) (n : nat) :
  ((n ≤ DocumentSet.__len__ C)%nat →
   list_drain n (DocumentSet.__iter__ C)
   = (take n (DocumentSet.docs C),
      {| it_seq := Some (DocumentSet.docs C); it_index := n |}))
  ∧ ((DocumentSet.__len__ C < n)%nat →
     list_drain n (DocumentSet.__iter__ C)
     = (DocumentSet.docs C,
        {| it_seq := None; it_index := DocumentSet.__len__ C |}))
  ∧ list_next (A:=Document.t)
      {| it_seq := None; it_index := DocumentSet.__len__ C |}
    = (None, {| it_seq := None; it_index := DocumentSet.__len__ C |})
  ∧ (∀ d, fst (list_drain (S (DocumentSet.__len__ C)) (DocumentSet.__iter__ C))
            !! n = Some d
          ↔ DocumentSet.__getitem__ C (Index (Z.of_nat n)) = inr (inl d)).
Proof.
  unfold DocumentSet.__iter__, DocumentSet.__len__, list_iter.
  rewrite !list_drain_from by lia. rewrite Nat.sub_0_r, drop_0.
  split; [|split; [|split]].
  - intros Hn. by rewrite decide_True by done.
  - intros Hn. by rewrite decide_False by lia.
  - done.
  - intros d. rewrite decide_False by lia. cbn [fst].
    unfold DocumentSet.__getitem__, list_getitem.
    rewrite !(proj2 (Z.ltb_ge (Z.of_nat n) 0)) by lia.
    rewrite Nat2Z.id.
    destruct (Z.leb_spec (Z.of_nat (length (DocumentSet.docs C))) (Z.of_nat n))
      as [Hle|Hlt]; simpl.
    + rewrite (proj2 (lookup_ge_None _ _)) by lia.
      by destruct (fits_index (Z.of_nat n)).
    + destruct (DocumentSet.docs C !! n) as [d'|] eqn:E.
      * split; intros [= ->]; done.
      * done.
Qed.

Lemma iter_yields_documents_in_order_witness :
  list_drain 3 (DocumentSet.__iter__
                  (DocumentSet.mk [mkdoc VNone "docA"; mkdoc VNone "docB"]))
  = ([mkdoc VNone "docA"; mkdoc VNone "docB"],
     {| it_seq := None; it_index := 2 |})
  ∧ list_drain 1 (DocumentSet.__iter__
                    (DocumentSet.mk [mkdoc VNone "docA"; mkdoc VNone "docB"]))
    = ([mkdoc VNone "docA"],
       {| it_seq := Some [mkdoc VNone "docA"; mkdoc VNone "docB"];
          it_index := 1 |}).
Proof.
  split.
  - apply (iter_yields_documents_in_order
             (DocumentSet.mk [mkdoc VNone "docA"; mkdoc VNone "docB"]) 3).
    vm_compute. lia.
  - apply (iter_yields_documents_in_order
             (DocumentSet.mk [mkdoc VNone "docA"; mkdoc VNone "docB"]) 1).
    vm_compute. lia.
Defined.

(** ** The default key across sources *)

Lemma filter_duplicates_default_pair {K} `{Countable K}
    (d1 d2 : Document.t) (i1 i2 : DocumentID.t) :
  Document.id d1 = VDocumentID i1 → Document.id d2 = VDocumentID i2 →
  DocumentSet.filter_duplicates (K:=K) (DocumentSet.mk [d1; d2]) None
  = Ok (DocumentSet.mk
          (if decide (DocumentID.id i1 = DocumentID.id i2)
           then [d1] else [d1; d2])).
Proof.
  intros H1 H2. rewrite filter_duplicates_None.
  assert (id_value d1 = DocumentID.id i1 ∧ id_value d2 = DocumentID.id i2)
    as [E1 E2] by (unfold id_value; by rewrite H1, H2).
  cbn [DocumentSet.docs forallb]. unfold has_DocumentID. rewrite H1, H2.
  cbn [andb]. rewrite filter_duplicates_Some. cbn [DocumentSet.docs].
  rewrite !first_occurrences_cons, first_occurrences_nil, E1, E2.
  rewrite bool_decide_eq_false_2 by (by intros ?%elem_of_nil).
  destruct (decide (DocumentID.id i1 = DocumentID.id i2)) as [Heq|Hne].
  - rewrite bool_decide_eq_true_2; [done|].
    apply list_elem_of_singleton. done.
  - rewrite bool_decide_eq_false_2; [done|].
    intros Hin%list_elem_of_singleton. done.
Qed.

(** X21. The default key is the identifier value alone: of two documents
    with a [DocumentID], the second is dropped by [filter_duplicates]
    exactly when the two identifier values are equal, whatever their
    [is_doi] flags and other attributes; so a title that reads like
    another document's DOI makes a duplicate. *)
Theorem default_key_ignores_is_doi {K} `{Countable K}
    (d1 d2 : Document.t) (i1 i2 : DocumentID.t) :
  Document.id d1 = VDocumentID i1 → Document.id d2 = VDocumentID i2 →
  (DocumentID.id i1 = DocumentID.id i2 →
   DocumentSet.filter_duplicates (K:=K) (DocumentSet.mk [d1; d2]) None
   = Ok (DocumentSet.mk [d1]))
  ∧ (DocumentID.id i1 ≠ DocumentID.id i2 →
     DocumentSet.filter_duplicates (K:=K) (DocumentSet.mk [d1; d2]) None
     = Ok (DocumentSet.mk [d1; d2])).
Proof.
  intros H1 H2. rewrite (filter_duplicates_default_pair d1 d2 i1 i2) by done.
  split; intros Hid.
  - by rewrite decide_True.
  - by rewrite decide_False.
Qed.

Lemma default_key_ignores_is_doi_witness :
  DocumentSet.filter_duplicates (K:=nat)
    (DocumentSet.mk [mkdoc (doi_id "10.1/x") "docA";
                     mkdoc (title_id "10.1/x") "docB"]) None
  = Ok (DocumentSet.mk [mkdoc (doi_id "10.1/x") "docA"]).
Proof.
  apply (default_key_ignores_is_doi (K:=nat)
           (mkdoc (doi_id "10.1/x") "docA") (mkdoc (title_id "10.1/x") "docB")
           (DocumentID.mk (Some "10.1/x") true)
           (DocumentID.mk (Some "10.1/x") false)); reflexivity.
Defined.

(** X22. One publication met in three sources is one document: when a
    Scopus record, a DBLP result and a BibTeX entry carry the same
    non-empty DOI, the BibTeX one behind ["http://doi.org/"] or
    ["http://doi.ieeecomputersociety.org/"] and the DOI itself containing
    neither URL, the three parsers give the same [DocumentID], and
    [filter_duplicates] with the default key keeps the first only of two
    documents so identified. *)
Theorem same_doi_across_sources {K} `{Countable K}
    (x : string) (a : DocumentID.scopus_abstract)
    (dblp_result : gmap string (gmap string string)) (info : gmap string string)
    (bibtex_entry : gmap string string) (v : string) (d1 d2 : Document.t) :
  x ≠ "" → occurs url_doi x = false → occurs url_ieee x = false →
  DocumentID.doi a = Some x →
  dblp_result !! "info" = Some info → info !! "doi" = Some x →
  bibtex_entry !! "doi" = Some v → v = url_doi +:+ x ∨ v = url_ieee +:+ x →
  DocumentID.parse_scopus a (DocumentID.__init__ None)
  = (Ok tt, DocumentID.mk (Some x) true)
  ∧ DocumentID.parse_dblp dblp_result (DocumentID.__init__ None)
    = (Ok tt, DocumentID.mk (Some x) true)
  ∧ DocumentID.parse_bibtex bibtex_entry (DocumentID.__init__ None)
    = (Ok tt, DocumentID.mk (Some x) true)
  ∧ (Document.id d1 = VDocumentID (DocumentID.mk (Some x) true) →
     Document.id d2 = VDocumentID (DocumentID.mk (Some x) true) →
     DocumentSet.filter_duplicates (K:=K) (DocumentSet.mk [d1; d2]) None
     = Ok (DocumentSet.mk [d1])).
Proof.
  intros Hx Hdoi Hieee Ha Hinfo Hd Hb Hv.
  rewrite parse_scopus_cases, parse_dblp_cases, parse_bibtex_cases.
  rewrite Ha, Hinfo, Hd, Hb.
  split; [|split; [|split]].
  - by destruct x.
  - done.
  - do 3 f_equal. destruct Hv as [->| ->].
    + rewrite replace_url_doi_prefix, (replace_no_occurrence x url_doi) by done.
      by apply replace_no_occurrence.
    + rewrite replace_url_doi_ieee_prefix, (replace_no_occurrence x url_doi)
        by done.
      rewrite replace_url_ieee_prefix. by apply replace_no_occurrence.
  - intros H1 H2.
    by rewrite (filter_duplicates_default_pair d1 d2 _ _ H1 H2), decide_True.
Qed.

Lemma same_doi_across_sources_witness :
  DocumentID.parse_bibtex {[ "doi" := "http://doi.org/10.1/x" ]}
    (DocumentID.__init__ None)
  = (Ok tt, DocumentID.mk (Some "10.1/x") true)
  ∧ DocumentID.parse_dblp {[ "info" := {[ "doi" := "10.1/x" ]} ]}
      (DocumentID.__init__ None)
    = (Ok tt, DocumentID.mk (Some "10.1/x") true).
Proof.
  destruct (same_doi_across_sources (K:=nat) "10.1/x"
              {| DocumentID.doi := Some "10.1/x"; DocumentID.eid := None;
                 DocumentID.title := None |}
              {[ "info" := {[ "doi" := "10.1/x" ]} ]} {[ "doi" := "10.1/x" ]}
              {[ "doi" := "http://doi.org/10.1/x" ]} "http://doi.org/10.1/x"
              (mkdoc (doi_id "10.1/x") "docA") (mkdoc (doi_id "10.1/x") "docB"))
    as [_ [Hd [Hb _]]].
  - intros Heq. discriminate Heq.
  - vm_compute. reflexivity.
  - vm_compute. reflexivity.
  - reflexivity.
  - vm_compute. reflexivity.
  - vm_compute. reflexivity.
  - vm_compute. reflexivity.
  - left. reflexivity.
  - split; [exact Hb|exact Hd].
Defined.
